(** * Noesis knowledge tree: tree store, expansion controller and layout

    A shallow embedding of the algorithmic core of [src/App.tsx]:
    - [updateNodeState], the path-addressed immutable update of the tree,
      and the three updater closures of [handleExpand];
    - [handleNodeClick] and the expansion life cycle of [handleExpand];
    - the recursive [layout] of the [useMemo] block, with its mutable
      counters and the in-place vertical centering pass.

    Conventions.  A JS array index is an integer [Z] (a negative index is a
    value the code can be handed and it takes a path of its own); an
    optional field [f?: T] is an [option T], absent being [None]; JS
    numbers that hold coordinates are exact rationals [Q], compared with
    [==], so statements about coordinates are statements of exact
    arithmetic. *)

From stdpp Require Import list strings.
From Stdlib Require Import QArith Qminmax.

Local Open Scope Z_scope.

(** ** Data model *)

(** [interface TreeNodeData]: [subtopics] and [_isLoading] are optional. *)
#[local] Unset Elimination Schemes.
Inductive TreeNodeData : Type := mkTreeNodeData {
  title : string;
  description : string;
  subtopics : option (list TreeNodeData);
  _isLoading : option bool
}.
#[local] Set Elimination Schemes.

(** [interface KnowledgeTree]: the root wrapper; [subtopics] is required. *)
Record KnowledgeTree : Type := mkKnowledgeTree {
  topic : string;
  root_description : string;
  root_subtopics : list TreeNodeData
}.

(** An updater closure [(node: TreeNodeData) => TreeNodeData]. *)
Definition Updater : Type := TreeNodeData -> TreeNodeData.

(** Object spreads [{ ...node, field: v }]. *)
Definition with_subtopics (node : TreeNodeData) (subs : list TreeNodeData) : TreeNodeData :=
  mkTreeNodeData (title node) (description node) (Some subs) (_isLoading node).

Definition with_isLoading (node : TreeNodeData) (b : bool) : TreeNodeData :=
  mkTreeNodeData (title node) (description node) (subtopics node) (Some b).

(** [node.subtopics || []] *)
Definition subtopics_or_empty (node : TreeNodeData) : list TreeNodeData :=
  default [] (subtopics node).

(** Truthiness of the optional flag, as read by [!node._isLoading] and
    [node._isLoading && ...]. *)
Definition is_loading (node : TreeNodeData) : bool :=
  default false (_isLoading node).

(** [nodes[i]] for an integer [i]: [undefined] outside [0 .. length-1]. *)
Definition nth_Z {A} (l : list A) (i : Z) : option A :=
  if bool_decide (0 <= i) then l !! Z.to_nat i else None.

(** ** Tree store: [updateNodeState] *)

(** The recursion follows [path.slice(1)], so it is structural on the path.
    [path[0] === undefined] is the empty path; [path.length === 1] is an
    empty tail. *)
Fixpoint updateNodeState (nodes : list TreeNodeData) (path : list Z)
    (updater : Updater) {struct path} : list TreeNodeData :=
  match path with
  | [] => nodes
  | index :: rest =>
      if bool_decide (Z.of_nat (length nodes) <= index) then nodes
      else
        imap (fun i node =>
                if bool_decide (Z.of_nat i = index) then
                  match rest with
                  | [] => updater node
                  | _ :: _ =>
                      with_subtopics node
                        (updateNodeState (subtopics_or_empty node) rest updater)
                  end
                else node) nodes
  end.

(** The state transformer handed to [setTreeData] by [handleExpand]:
    [prevTree => prevTree ? { ...prevTree, subtopics: updateNodeState(...) } : null].
    This is the store's [applyAt]. *)
Definition applyAt (tree : KnowledgeTree) (indexPath : list Z) (updater : Updater)
    : KnowledgeTree :=
  mkKnowledgeTree (topic tree) (root_description tree)
    (updateNodeState (root_subtopics tree) indexPath updater).

(** The three updater closures of [handleExpand]. *)
Definition markLoading : Updater := fun node => with_isLoading node true.

Definition replaceChildrenClearLoading (expandedData : list TreeNodeData) : Updater :=
  fun node => mkTreeNodeData (title node) (description node) (Some expandedData) (Some false).

Definition clearLoadingOnly : Updater := fun node => with_isLoading node false.

(** The root seen as a node: [{ ...treeData, title: treeData.topic }]. *)
Definition rootDataNode (treeData : KnowledgeTree) : TreeNodeData :=
  mkTreeNodeData (topic treeData) (root_description treeData)
    (Some (root_subtopics treeData)) None.

(** What the update does to the node it selects at one level. *)
Definition rebuild (rest : list Z) (updater : Updater) (node : TreeNodeData) : TreeNodeData :=
  match rest with
  | [] => updater node
  | _ :: _ =>
      with_subtopics node (updateNodeState (subtopics_or_empty node) rest updater)
  end.

(** *** Addressing nodes by index path *)

(** The node reached from a sequence of siblings by a non-empty path. *)
Fixpoint get_node (nodes : list TreeNodeData) (path : list Z) : option TreeNodeData :=
  match path with
  | [] => None
  | index :: rest =>
      match nth_Z nodes index with
      | None => None
      | Some node =>
          match rest with
          | [] => Some node
          | _ :: _ => get_node (subtopics_or_empty node) rest
          end
      end
  end.

(** The node of a tree at an index path; the empty path is the root. *)
Definition node_at (tree : KnowledgeTree) (indexPath : list Z) : option TreeNodeData :=
  match indexPath with
  | [] => Some (rootDataNode tree)
  | _ :: _ => get_node (root_subtopics tree) indexPath
  end.

(** Every index of the path is a valid position at its depth. *)
Fixpoint in_bounds (nodes : list TreeNodeData) (path : list Z) : Prop :=
  match path with
  | [] => True
  | index :: rest =>
      match nth_Z nodes index with
      | None => False
      | Some node => in_bounds (subtopics_or_empty node) rest
      end
  end.

(** Some index of the path is not a valid position in the sequence reached
    at its depth. *)
Fixpoint out_of_bounds (nodes : list TreeNodeData) (path : list Z) : Prop :=
  match path with
  | [] => False
  | index :: rest =>
      match nth_Z nodes index with
      | None => True
      | Some node => out_of_bounds (subtopics_or_empty node) rest
      end
  end.

(** Every node the update rebuilds as a container (a node on the path that
    is followed further down) carries a [subtopics] field. *)
Fixpoint containers_present (nodes : list TreeNodeData) (path : list Z) : Prop :=
  match path with
  | [] => True
  | index :: rest =>
      match nth_Z nodes index, rest with
      | Some node, _ :: _ =>
          is_Some (subtopics node) /\ containers_present (subtopics_or_empty node) rest
      | _, _ => True
      end
  end.

(** Two index paths part ways: neither leads through the other. *)
Definition diverge (p q : list Z) : Prop := ~ p `prefix_of` q /\ ~ q `prefix_of` p.

(** ** Processed nodes *)

(** A reference to a [ProcessedNode] object: its allocation number in the
    store of the layout pass. *)
Abbreviation ref := nat (only parsing).

(** [interface ProcessedNode extends TreeNodeData].  The spread
    [...nodeData] is kept as the field [nodeData]; [children] and [parent]
    hold references, because the objects are shared and mutated in place. *)
Module PN.
Record t : Type := mk {
  nodeData : TreeNodeData;
  x : Q;
  y : Q;
  children : list ref;
  parent : option ref;
  path : string;
  indexPath : list Z
}.
End PN.

(** ** Interaction controller *)

(** The callbacks a [Node] component can invoke. *)
Inductive Callback : Type :=
| OnSelect (node : PN.t)
| OnExpand (indexPath : list Z) (nodeTitle : string).

(** [!node.subtopics || node.subtopics.length === 0] *)
Definition canExpand (node : PN.t) : bool :=
  match subtopics (PN.nodeData node) with
  | None => true
  | Some subs => bool_decide (length subs = 0%nat)
  end.

(** [Node.handleNodeClick]: the callbacks invoked by one click, in order. *)
Definition handleNodeClick (node : PN.t) : list Callback :=
  OnSelect node ::
  (if canExpand node && negb (is_loading (PN.nodeData node))
   then [OnExpand (PN.indexPath node) (title (PN.nodeData node))]
   else []).

(** The part of the [App] state the expansion life cycle touches, with the
    expansion requests that have been issued and not yet settled. *)
Record AppState : Type := mkAppState {
  treeData : option KnowledgeTree;
  error : option string;
  inFlight : list (list Z * string)
}.

(** What [await generateTree(prompt)] yields: the parsed children, or
    [null] after the error message has been set. *)
Inductive Outcome : Type :=
| Resolved (expandedData : list TreeNodeData)
| Failed (message : string).

(** [handleExpand] up to its [await]: mark the node and issue the request. *)
Definition handleExpand_request (path : list Z) (nodeTitle : string)
    (st : AppState) : AppState :=
  match treeData st with
  | None => st
  | Some _ =>
      mkAppState ((fun prevTree => applyAt prevTree path markLoading) <$> treeData st)
        None (inFlight st ++ [(path, nodeTitle)])
  end.

(** [handleExpand] after its [await]: apply the outcome to the tree that is
    current at that time. *)
Definition handleExpand_settle (path : list Z) (outcome : Outcome)
    (st : AppState) : AppState :=
  match outcome with
  | Resolved expandedData =>
      mkAppState
        ((fun prevTree => applyAt prevTree path (replaceChildrenClearLoading expandedData))
           <$> treeData st)
        (error st) (inFlight st)
  | Failed message =>
      mkAppState
        ((fun prevTree => applyAt prevTree path clearLoadingOnly) <$> treeData st)
        (Some message) (inFlight st)
  end.

(** ** Layout engine *)

Definition LEVEL_SPACING : Q := 220.
Definition VERTICAL_SPACING : Q := 30.
Definition NODE_HEIGHT : Q := 40.
Definition PADDING : Q := 50.

(** The mutable variables the recursive [layout] closes over, and the
    store of the objects it allocates. *)
Record LayoutState : Type := mkLayoutState {
  store : list PN.t;
  allNodes : list ref;
  allEdges : list (ref * ref);
  yCounter : Q;
  maxDepth : nat
}.

Definition initialLayoutState : LayoutState := mkLayoutState [] [] [] PADDING 0.

(** [r.y] for a reference [r]; every reference the code reads is live, the
    default stands for a dangling one. *)
Definition y_of (objs : list PN.t) (r : ref) : Q :=
  from_option PN.y 0%Q (objs !! r).

Definition set_y (v : Q) (node : PN.t) : PN.t :=
  PN.mk (PN.nodeData node) (PN.x node) v (PN.children node) (PN.parent node)
    (PN.path node) (PN.indexPath node).

Definition set_children (kids : list ref) (node : PN.t) : PN.t :=
  PN.mk (PN.nodeData node) (PN.x node) (PN.y node) kids (PN.parent node)
    (PN.path node) (PN.indexPath node).

(** [parentPath ? `${parentPath} > ${title}` : title] *)
Definition child_path (parentPath nodeTitle : string) : string :=
  if bool_decide (parentPath = "") then nodeTitle
  else parentPath +:+ " > " +:+ nodeTitle.

Definition depth_x (depth : nat) : Q :=
  inject_Z (Z.of_nat depth) * LEVEL_SPACING + PADDING.

(** [const processedNode = { ...nodeData, x, y: 0, children: [], ... }] *)
Definition fresh_node (nodeData : TreeNodeData) (depth : nat) (parent : option ref)
    (parentPath : string) (indexPath : list Z) : PN.t :=
  PN.mk nodeData (depth_x depth) 0 [] parent
    (child_path parentPath (title nodeData)) indexPath.

(** Entering [layout]: [maxDepth] is raised and the object comes to life. *)
Definition allocate (node : PN.t) (depth : nat) (st : LayoutState) : LayoutState :=
  mkLayoutState (store st ++ [node]) (allNodes st) (allEdges st) (yCounter st)
    (Nat.max (maxDepth st) depth).

(** The [else] branch: a leaf takes the counter, which then advances. *)
Definition place_leaf (self : ref) (st : LayoutState) : LayoutState :=
  mkLayoutState (alter (set_y (yCounter st)) self (store st)) (allNodes st)
    (allEdges st) (yCounter st + (NODE_HEIGHT + VERTICAL_SPACING))%Q (maxDepth st).

(** The [then] branch after the children are laid out: [children] is
    assigned, then [y] from the first and the last of them. *)
Definition place_parent (self : ref) (kids : list ref) (st : LayoutState) : LayoutState :=
  let objs := alter (set_children kids) self (store st) in
  match head kids, last kids with
  | Some firstChild, Some lastChild =>
      let mid := (y_of objs firstChild
                  + (y_of objs lastChild - y_of objs firstChild) / 2)%Q in
      mkLayoutState (alter (set_y mid) self objs) (allNodes st) (allEdges st)
        (yCounter st) (maxDepth st)
  | _, _ =>
      mkLayoutState objs (allNodes st) (allEdges st) (yCounter st) (maxDepth st)
  end.

(** Leaving [layout]: the node is pushed, and its edge if it has a parent. *)
Definition finish (self : ref) (parent : option ref) (st : LayoutState)
    : ref * LayoutState :=
  (self,
   mkLayoutState (store st) (allNodes st ++ [self])
     (match parent with
      | Some p => allEdges st ++ [(p, self)]
      | None => allEdges st
      end)
     (yCounter st) (maxDepth st)).

(** The recursive [layout].  The object is allocated before the children
    are laid out (they point back to it), completed after them and only
    then pushed on [allNodes]. *)
Fixpoint layout (nodeData : TreeNodeData) (depth : nat) (parent : option ref)
    (parentPath : string) (indexPath : list Z) (st : LayoutState)
    {struct nodeData} : ref * LayoutState :=
  let self : ref := length (store st) in
  let processedNode := fresh_node nodeData depth parent parentPath indexPath in
  let st0 := allocate processedNode depth st in
  finish self parent
    match subtopics nodeData with
    | Some ((_ :: _) as subs) =>
        let '(kids, s) :=
          (fix layout_each (l : list TreeNodeData) (index : nat) (s : LayoutState)
             : list ref * LayoutState :=
             match l with
             | [] => ([], s)
             | subtopic :: l' =>
                 let '(kid, s1) :=
                   layout subtopic (S depth) (Some self) (PN.path processedNode)
                     (indexPath ++ [Z.of_nat index]) s in
                 let '(rest, s2) := layout_each l' (S index) s1 in
                 (kid :: rest, s2)
             end) subs 0%nat st0 in
        place_parent self kids s
    | _ => place_leaf self st0
    end.

(** The [subtopics.map((subtopic, index) => layout(...))] of a parent. *)
Definition layout_children (depth : nat) (self : ref) (own_path : string)
    (indexPath : list Z) : list TreeNodeData -> nat -> LayoutState -> list ref * LayoutState :=
  fix layout_each (l : list TreeNodeData) (index : nat) (s : LayoutState)
    : list ref * LayoutState :=
    match l with
    | [] => ([], s)
    | subtopic :: l' =>
        let '(kid, s1) :=
          layout subtopic (S depth) (Some self) own_path
            (indexPath ++ [Z.of_nat index]) s in
        let '(rest, s2) := layout_each l' (S index) s1 in
        (kid :: rest, s2)
    end.

(** [allNodes.forEach(node => { node.y += rootYOffset })]: one in-place
    update per entry of the list. *)
Definition add_y (offset : Q) (node : PN.t) : PN.t :=
  set_y (PN.y node + offset)%Q node.

Definition shift_all (offset : Q) (objs : list PN.t) (nodes : list ref) : list PN.t :=
  foldl (fun acc r => alter (add_y offset) r acc) objs nodes.

(** The objects a list of references holds, in order. *)
Definition deref (objs : list PN.t) (refs : list ref) : list PN.t :=
  omap (fun r => objs !! r) refs.

(** The result of the [useMemo] block: the two lists it returns, whose
    entries are references, and the objects they refer to. *)
Record Layout : Type := mkLayout {
  objects : list PN.t;
  nodes : list ref;
  edges : list (ref * ref)
}.

(** The first half of the block: the recursive pass from the root. *)
Definition layout_pass (tree : KnowledgeTree) : ref * LayoutState :=
  layout (rootDataNode tree) 0 None "" [] initialLayoutState.

(** The whole block, for a container height and a zoom factor [k]. *)
Definition compute_layout (treeData : option KnowledgeTree)
    (containerHeight k : Q) : Layout :=
  match treeData with
  | None => mkLayout [] [] []
  | Some tree =>
      let '(rootNode, st) := layout_pass tree in
      let rootYOffset := (containerHeight / (2 * k) - y_of (store st) rootNode)%Q in
      mkLayout (shift_all rootYOffset (store st) (allNodes st)) (allNodes st)
        (allEdges st)
  end.

(** The objects the [nodes] list holds, in order. *)
Definition rendered (lay : Layout) : list PN.t :=
  deref (objects lay) (nodes lay).

(** ** Traversals of a tree, for stating what the layout produces *)

(** The node reached from a node by an index path; the empty path stays. *)
Definition descend (node : TreeNodeData) (path : list Z) : option TreeNodeData :=
  match path with
  | [] => Some node
  | _ :: _ => get_node (subtopics_or_empty node) path
  end.

(** A leaf for the layout: [subtopics] absent or empty. *)
Definition is_leaf (node : TreeNodeData) : bool :=
  bool_decide (subtopics_or_empty node = []).

(** Number of nodes of a subtree. *)
Fixpoint size (node : TreeNodeData) : nat :=
  S (match subtopics node with
     | Some subs =>
         (fix go (l : list TreeNodeData) : nat :=
            match l with
            | [] => 0
            | c :: l' => size c + go l'
            end) subs
     | None => 0
     end)%nat.

Fixpoint sizes (l : list TreeNodeData) : nat :=
  match l with
  | [] => 0
  | c :: l' => size c + sizes l'
  end%nat.

(** Number of leaves of a subtree. *)
Fixpoint leaf_count (node : TreeNodeData) : nat :=
  match subtopics node with
  | Some ((_ :: _) as subs) =>
      (fix go (l : list TreeNodeData) : nat :=
         match l with
         | [] => 0
         | c :: l' => leaf_count c + go l'
         end) subs
  | _ => 1
  end%nat.

Fixpoint leaf_counts (l : list TreeNodeData) : nat :=
  match l with
  | [] => 0
  | c :: l' => leaf_count c + leaf_counts l'
  end%nat.

(** Post-order: the subtrees of the children from left to right, then the
    node; every node comes with its index path. *)
Fixpoint postorder (indexPath : list Z) (node : TreeNodeData)
    : list (list Z * TreeNodeData) :=
  match subtopics node with
  | Some subs =>
      (fix go (l : list TreeNodeData) (index : nat) : list (list Z * TreeNodeData) :=
         match l with
         | [] => []
         | c :: l' => postorder (indexPath ++ [Z.of_nat index]) c ++ go l' (S index)
         end) subs 0%nat
  | None => []
  end ++ [(indexPath, node)].

Definition postorder_all (indexPath : list Z)
    : list TreeNodeData -> nat -> list (list Z * TreeNodeData) :=
  fix go (l : list TreeNodeData) (index : nat) : list (list Z * TreeNodeData) :=
    match l with
    | [] => []
    | c :: l' => postorder (indexPath ++ [Z.of_nat index]) c ++ go l' (S index)
    end.



(** The values the running counter takes: [n] of them from [start]. *)
Fixpoint counter_values (start : Q) (n : nat) : list Q :=
  match n with
  | O => []
  | S n' => start :: counter_values (start + (NODE_HEIGHT + VERTICAL_SPACING))%Q n'
  end.

(** The counter after [n] leaves. *)
Fixpoint counter_after (start : Q) (n : nat) : Q :=
  match n with
  | O => start
  | S n' => counter_after (start + (NODE_HEIGHT + VERTICAL_SPACING))%Q n'
  end.

(** The leaves among them. *)
Definition leaf_nodes (objs : list PN.t) (refs : list ref) : list PN.t :=
  filter (fun node => is_leaf (PN.nodeData node) = true) (deref objs refs).

(** ** A session: clicks on rendered nodes and requests that settle *)

(** The user clicks the [i]-th entry of the rendered [nodes]; the [j]-th
    request in flight settles with an outcome. *)
Inductive Event : Type :=
| ClickNode (i : nat)
| Settle (j : nat) (outcome : Outcome).

(** The handlers [App] passes to [Node].  [onSelect] sets the selection,
    which is not part of the modelled state. *)
Definition dispatch (st : AppState) (cb : Callback) : AppState :=
  match cb with
  | OnSelect _ => st
  | OnExpand indexPath nodeTitle => handleExpand_request indexPath nodeTitle st
  end.

Definition step (containerHeight k : Q) (st : AppState) (ev : Event) : AppState :=
  match ev with
  | ClickNode i =>
      match rendered (compute_layout (treeData st) containerHeight k) !! i with
      | Some node => foldl dispatch st (handleNodeClick node)
      | None => st
      end
  | Settle j outcome =>
      match inFlight st !! j with
      | Some (path, _) =>
          handleExpand_settle path outcome
            (mkAppState (treeData st) (error st) (delete j (inFlight st)))
      | None => st
      end
  end.

Definition run (containerHeight k : Q) (evs : list Event) (st : AppState) : AppState :=
  foldl (step containerHeight k) st evs.

(** The state after a tree has been generated. *)
Definition generated (tree : KnowledgeTree) : AppState :=
  mkAppState (Some tree) None [].

(** The number of requests in flight for the node at [path]. *)
Definition requests_for (path : list Z) (st : AppState) : nat :=
  length (filter (fun req : list Z * string => req.1 = path) (inFlight st)).

(** Every request in flight for a node other than the root is the only one
    for it, and that node is a leaf marked as loading. *)
Definition in_flight_ok (st : AppState) : Prop :=
  exists tree, treeData st = Some tree /\
    forall path, path <> [] ->
      (requests_for path st <= 1)%nat /\
      ((0 < requests_for path st)%nat ->
       exists node, get_node (root_subtopics tree) path = Some node /\
         is_leaf node = true /\ is_loading node = true).

(** ** What a layout pass leaves behind *)

(** The store [objs] holds the objects [new] from reference [r] on. *)
Definition holds_at (r : ref) (new objs : list PN.t) : Prop :=
  exists before after, objs = before ++ new ++ after /\ length before = r.

(** The references [order] lead, one by one, to objects that carry the
    index paths and the node data listed in [expected]. *)
Definition views_as (objs : list PN.t) (order : list ref)
    (expected : list (list Z * TreeNodeData)) : Prop :=
  Forall2 (fun r pd =>
             exists node, objs !! r = Some node /\
               PN.indexPath node = pd.1 /\ PN.nodeData node = pd.2)
    order expected.

(** The object at [r], if it has subtopics, sits halfway between the first
    and the last of its children, which are the objects laid out for the
    first and the last subtopic. *)
Definition centred (objs : list PN.t) (r : ref) : Prop :=
  forall node, objs !! r = Some node -> is_leaf (PN.nodeData node) = false ->
    exists f l firstChild lastChild,
      head (PN.children node) = Some f /\ last (PN.children node) = Some l /\
      objs !! f = Some firstChild /\ objs !! l = Some lastChild /\
      PN.indexPath firstChild = PN.indexPath node ++ [0] /\
      PN.indexPath lastChild =
        PN.indexPath node
        ++ [Z.of_nat (length (subtopics_or_empty (PN.nodeData node))) - 1] /\
      (PN.y node == PN.y firstChild + (PN.y lastChild - PN.y firstChild) / 2)%Q.

(** What holds of the list of references in any store that holds the
    objects of a pass. *)
Definition pass_result (objs : list PN.t) (order : list ref)
    (expected : list (list Z * TreeNodeData)) (yc : Q) (leaves : nat) : Prop :=
  views_as objs order expected /\
  PN.y <$> leaf_nodes objs order = counter_values yc leaves /\
  Forall (centred objs) order.

(** The objects [new] and the references [order] that laying out [node]
    adds, when the first free reference is [r] and the counter is [yc]. *)
Record Segment (ip : list Z) (node : TreeNodeData) (r : ref) (yc : Q)
    (new : list PN.t) (order : list ref) : Prop := mkSegment {
  seg_length : length new = size node;
  seg_order : Permutation order (seq r (size node));
  seg_root : exists own, new !! 0%nat = Some own /\ PN.indexPath own = ip;
  seg_last : last order = Some r;
  seg_result : forall objs, holds_at r new objs ->
    pass_result objs order (postorder ip node) yc (leaf_count node)
}.

(** The same for the subtopics [l] of one parent, laid out from position
    [index]; [kids] are the references the calls return. *)
Record Segments (ip : list Z) (l : list TreeNodeData) (index : nat) (r : ref)
    (yc : Q) (new : list PN.t) (order kids : list ref) : Prop := mkSegments {
  segs_length : length new = sizes l;
  segs_order : Permutation order (seq r (sizes l));
  segs_kids :
    Forall2 (fun k i => (r <= k)%nat /\
               exists kid, new !! (k - r)%nat = Some kid /\
                 PN.indexPath kid = ip ++ [Z.of_nat i])
      kids (seq index (length l));
  segs_result : forall objs, holds_at r new objs ->
    pass_result objs order (postorder_all ip l index) yc (leaf_counts l)
}.

(** The shape of the state a call of [layout] returns. *)
Definition layout_spec (node : TreeNodeData) : Prop :=
  forall depth parent parentPath ip st,
    exists new order es md,
      layout node depth parent parentPath ip st =
        (length (store st),
         mkLayoutState (store st ++ new) (allNodes st ++ order) es
           (counter_after (yCounter st) (leaf_count node)) md) /\
      Segment ip node (length (store st)) (yCounter st) new order.

(** The node at [q] lies below the node at [p]. *)
Definition strict_prefix (p q : list Z) : Prop := exists r, r <> [] /\ q = p ++ r.

(** In a list of nodes with index paths, whatever lies below a node comes
    before it. *)
Definition descendants_first {A} (paths : list (list Z * A)) : Prop :=
  forall (i j : nat) a b,
    paths !! i = Some a -> paths !! j = Some b -> strict_prefix b.1 a.1 -> (i < j)%nat.

(** What a post-order list holds, in terms of the nodes below [node]. *)
Definition postorder_holds (node : TreeNodeData) : Prop :=
  forall ip p d,
    (p, d) ∈ postorder ip node <-> exists q, p = ip ++ q /\ descend node q = Some d.

(** ** Relating the tree before and after a session *)

(** Every node of [before] is still found in [after], at the same index
    path and with the same title and description. *)
Definition keeps_labels (before after : KnowledgeTree) : Prop :=
  forall q n, node_at before q = Some n ->
    exists n', node_at after q = Some n' /\
      title n' = title n /\ description n' = description n.

(** ** Pan and zoom *)

(** The state [viewTransform]: a translation and a scale. *)
Record ViewTransform : Type := mkViewTransform {
  vt_x : Q;
  vt_y : Q;
  vt_k : Q
}.

(** [useState({ x: 0, y: 0, k: 1 })], also what [handleInitialGenerate]
    resets the view to. *)
Definition initialViewTransform : ViewTransform := mkViewTransform 0 0 1.

(** [handleWheel], for a wheel event with [deltaY] and the cursor at
    [(mouseX, mouseY)] relative to the container. *)
Definition handleWheel (deltaY mouseX mouseY : Q) (vt : ViewTransform) : ViewTransform :=
  let scaleAmount := (- deltaY * (1 # 1000))%Q in
  let newK := Qmax (1 # 10) (Qmin 5 (vt_k vt + scaleAmount)) in
  let newX := (mouseX - (mouseX - vt_x vt) * (newK / vt_k vt))%Q in
  let newY := (mouseY - (mouseY - vt_y vt) * (newK / vt_k vt))%Q in
  mkViewTransform newX newY newK.

(** The pan gesture: the [isPanning] state, the refs [longPressTimeout] and
    [panStart], the view, and the timers that [setTimeout] has started and
    that have neither fired nor been cleared, each with the cursor position
    its callback captured. *)
Record PanZoom : Type := mkPanZoom {
  isPanning : bool;
  longPressTimeout : option nat;
  pendingTimers : list (nat * (Q * Q));
  nextTimerId : nat;
  panStart : Q * Q;
  viewTransform : ViewTransform
}.

(** Timer identifiers are positive, so a remembered one is truthy. *)
Definition initialPanZoom : PanZoom :=
  mkPanZoom false None [] 1 (0, 0)%Q initialViewTransform.

(** [handleMouseDown] on the canvas: a long-press timer is started and
    remembered; an earlier one is not cleared. *)
Definition handleMouseDown (clientX clientY : Q) (s : PanZoom) : PanZoom :=
  mkPanZoom (isPanning s) (Some (nextTimerId s))
    (pendingTimers s ++ [(nextTimerId s, (clientX, clientY))])
    (S (nextTimerId s)) (panStart s) (viewTransform s).

(** [clearTimeout(id)] *)
Definition clearTimeout (timer : nat) (timers : list (nat * (Q * Q)))
    : list (nat * (Q * Q)) :=
  filter (fun entry => entry.1 <> timer) timers.

(** The callback of a long-press timer, [LONG_PRESS_DURATION] after it was
    started, if it is still pending. *)
Definition longPressElapsed (timer : nat) (s : PanZoom) : PanZoom :=
  match list_find (fun entry => entry.1 = timer) (pendingTimers s) with
  | Some (_, (_, start)) =>
      mkPanZoom true None (clearTimeout timer (pendingTimers s)) (nextTimerId s)
        start (viewTransform s)
  | None => s
  end.

(** [handleMouseMove] on the window. *)
Definition handleMouseMove (clientX clientY : Q) (s : PanZoom) : PanZoom :=
  if isPanning s then
    let dx := (clientX - (panStart s).1)%Q in
    let dy := (clientY - (panStart s).2)%Q in
    mkPanZoom (isPanning s) (longPressTimeout s) (pendingTimers s) (nextTimerId s)
      (clientX, clientY)
      (mkViewTransform (vt_x (viewTransform s) + dx) (vt_y (viewTransform s) + dy)
         (vt_k (viewTransform s)))
  else s.

(** [handleMouseUp] on the window. *)
Definition handleMouseUp (s : PanZoom) : PanZoom :=
  mkPanZoom false None
    (match longPressTimeout s with
     | Some timer => clearTimeout timer (pendingTimers s)
     | None => pendingTimers s
     end)
    (nextTimerId s) (panStart s) (viewTransform s).

Inductive ViewEvent : Type :=
| MouseDown (clientX clientY : Q)
| LongPressElapsed (timer : nat)
| MouseMove (clientX clientY : Q)
| MouseUp
| Wheel (deltaY mouseX mouseY : Q)
| ResetView.

Definition view_step (s : PanZoom) (ev : ViewEvent) : PanZoom :=
  match ev with
  | MouseDown clientX clientY => handleMouseDown clientX clientY s
  | LongPressElapsed timer => longPressElapsed timer s
  | MouseMove clientX clientY => handleMouseMove clientX clientY s
  | MouseUp => handleMouseUp s
  | Wheel deltaY mouseX mouseY =>
      mkPanZoom (isPanning s) (longPressTimeout s) (pendingTimers s) (nextTimerId s)
        (panStart s) (handleWheel deltaY mouseX mouseY (viewTransform s))
  | ResetView =>
      mkPanZoom (isPanning s) (longPressTimeout s) (pendingTimers s) (nextTimerId s)
        (panStart s) initialViewTransform
  end.

Definition view_run (evs : list ViewEvent) (s : PanZoom) : PanZoom :=
  foldl view_step s evs.


(** Events that leave the view alone unless a pan is going on. *)
Definition is_passive (ev : ViewEvent) : bool :=
  match ev with
  | LongPressElapsed _ | MouseMove _ _ | MouseUp => true
  | _ => false
  end.

(** ** Edges, parents and children in the store *)

Definition NODE_RADIUS : Q := 7.

(** The four points of the cubic curve the [Edge] component draws:
    [M start C control1, control2, end]. *)
Definition edge_curve (source target : PN.t) : (Q * Q) * (Q * Q) * (Q * Q) * (Q * Q) :=
  ((PN.x source + NODE_RADIUS, PN.y source),
   (PN.x source + LEVEL_SPACING / 2, PN.y source),
   (PN.x target - LEVEL_SPACING / 2, PN.y target),
   (PN.x target - NODE_RADIUS, PN.y target))%Q.

(** [isSelected={selectedNode?.path === node.path}] *)
Definition isSelected (selectedNode : option PN.t) (node : PN.t) : bool :=
  bool_decide (PN.path <$> selectedNode = Some (PN.path node)).

(** The pairs [(parent, node)] for the references of [order] whose object
    has a parent. *)
Definition edges_of (objs : list PN.t) (order : list ref) : list (ref * ref) :=
  omap (fun r => node ← objs !! r; p ← PN.parent node; Some (p, r)) order.

(** The object at [r] hangs below the object its [parent] field refers to:
    it is one of that object's children, one index deeper and one level to
    the right, and its path string extends the parent's. *)
Definition linked (objs : list PN.t) (r : ref) : Prop :=
  forall node, objs !! r = Some node ->
    exists p father (i : nat),
      PN.parent node = Some p /\ objs !! p = Some father /\
      PN.children father !! i = Some r /\
      PN.indexPath node = PN.indexPath father ++ [Z.of_nat i] /\
      PN.path node = child_path (PN.path father) (title (PN.nodeData node)) /\
      (PN.x node == PN.x father + LEVEL_SPACING)%Q.

(** A list with the positions of its elements, counted from [index]. *)
Definition numbered {A} (index : nat) (l : list A) : list (nat * A) :=
  zip (seq index (length l)) l.

(** The [children] of the object at [r] are, position by position, the
    objects laid out for the subtopics of its node. *)
Definition fathers (objs : list PN.t) (r : ref) : Prop :=
  forall node, objs !! r = Some node ->
    Forall2 (fun c ic =>
               exists child, objs !! c = Some child /\
                 PN.parent child = Some r /\
                 PN.indexPath child = PN.indexPath node ++ [Z.of_nat ic.1] /\
                 PN.nodeData child = ic.2)
      (PN.children node) (numbered 0 (subtopics_or_empty (PN.nodeData node))).

(** The [x] of an object is that of its depth, which grows with the length
    of its index path. *)
Definition at_depth (depth0 : nat) (ip0 : list Z) (node : PN.t) : Prop :=
  exists d : nat,
    PN.x node = depth_x d /\
    (d + length ip0 = depth0 + length (PN.indexPath node))%nat.

(** How the objects of a pass over [node] are wired. *)
Record Wired (node : TreeNodeData) (depth : nat) (parent0 : option ref)
    (parentPath : string) (ip : list Z) (r : ref) (new : list PN.t)
    (order : list ref) (newedges : list (ref * ref)) : Prop := mkWired {
  w_root : exists own, new !! 0%nat = Some own /\
    PN.indexPath own = ip /\ PN.parent own = parent0 /\
    PN.path own = child_path parentPath (title node) /\
    PN.nodeData own = node /\ PN.x own = depth_x depth;
  w_depth : Forall (at_depth depth ip) new;
  w_edges_length :
    (length newedges + match parent0 with Some _ => 0 | None => 1 end
     = length new)%nat;
  w_links : forall objs, holds_at r new objs ->
    edges_of objs order = newedges /\
    Forall (fun x => x = r \/ linked objs x) order /\
    Forall (fathers objs) order
}.

(** The same for the subtopics [l] of the parent at [self]. *)
Record Wireds (l : list TreeNodeData) (index depth : nat) (self : ref)
    (own_path : string) (ip : list Z) (r : ref) (new : list PN.t)
    (order : list ref) (newedges : list (ref * ref)) (kids : list ref)
    : Prop := mkWireds {
  ws_kids :
    Forall2 (fun k ic => (r <= k)%nat /\
               exists kid, new !! (k - r)%nat = Some kid /\
                 PN.indexPath kid = ip ++ [Z.of_nat ic.1] /\
                 PN.parent kid = Some self /\
                 PN.path kid = child_path own_path (title ic.2) /\
                 PN.nodeData kid = ic.2 /\ PN.x kid = depth_x (S depth))
      kids (numbered index l);
  ws_depth : Forall (at_depth depth ip) new;
  ws_edges_length : length newedges = length new;
  ws_links : forall objs, holds_at r new objs ->
    edges_of objs order = newedges /\
    Forall (fun x => x ∈ kids \/ linked objs x) order /\
    Forall (fathers objs) order
}.

Definition wiring_spec (node : TreeNodeData) : Prop :=
  forall depth parent parentPath ip st,
    exists new order newedges yc md,
      layout node depth parent parentPath ip st =
        (length (store st),
         mkLayoutState (store st ++ new) (allNodes st ++ order)
           (allEdges st ++ newedges) yc md) /\
      Wired node depth parent parentPath ip (length (store st)) new order newedges.

(** The titles met on the way down an index path. *)
Fixpoint titles_along (nodes : list TreeNodeData) (path : list Z) : list string :=
  match path with
  | [] => []
  | index :: rest =>
      match nth_Z nodes index with
      | None => []
      | Some node => title node :: titles_along (subtopics_or_empty node) rest
      end
  end.

(** The path string of the node at an index path: the titles from the
    root down, joined as [child_path] joins them. *)
Definition label_path (tree : KnowledgeTree) (indexPath : list Z) : string :=
  foldl child_path "" (topic tree :: titles_along (root_subtopics tree) indexPath).

(** ** The sidebar: paragraphs of a description *)

(** A JS string read as its sequence of UTF-16 code units. *)
Abbreviation code_units := (list N) (only parsing).

Definition newline : N := 10%N.

(** The code units [String.prototype.trim] strips: the WhiteSpace and
    LineTerminator code points of ECMAScript, all in the basic plane. *)
Definition is_space (c : N) : bool :=
  bool_decide (c ∈ [9; 10; 11; 12; 13; 32; 160; 5760; 8232; 8233; 8239; 8287;
                    12288; 65279]%N)
  || (8192 <=? c)%N && (c <=? 8202)%N.

(** [s.split(sep)] for a one-unit separator. *)
Fixpoint split_on (sep : N) (s : code_units) : list code_units :=
  match s with
  | [] => [[]]
  | c :: s' =>
      if bool_decide (c = sep) then [] :: split_on sep s'
      else
        match split_on sep s' with
        | [] => [[c]]
        | piece :: pieces => (c :: piece) :: pieces
        end
  end.

(** [pieces.join(sep)] *)
Fixpoint join_with (sep : N) (pieces : list code_units) : code_units :=
  match pieces with
  | [] => []
  | [piece] => piece
  | piece :: pieces' => piece ++ sep :: join_with sep pieces'
  end.

(** Stripping the white space at the front. *)
Fixpoint trim_start (s : code_units) : code_units :=
  match s with
  | [] => []
  | c :: s' => if is_space c then trim_start s' else s
  end.

(** [s.trim()]: the white space at both ends is stripped. *)
Definition trim (s : code_units) : code_units :=
  reverse (trim_start (reverse (trim_start s))).

(** [Sidebar.renderDescription]: [null] for an empty description, else the
    texts of the [<p>] elements. *)
Definition renderDescription (desc : code_units) : option (list code_units) :=
  match desc with
  | [] => None
  | _ :: _ => Some (filter (fun p => trim p <> []) (split_on newline desc))
  end.

(** ** Trees of the same shape *)

(** Two nodes have the same shape when their subtopics, absent ones read
    as empty, correspond one to one and have the same shape in turn. *)
#[local] Unset Elimination Schemes.
Inductive same_shape : TreeNodeData -> TreeNodeData -> Prop :=
| same_shape_intro a b :
    Forall2 same_shape (subtopics_or_empty a) (subtopics_or_empty b) ->
    same_shape a b.
#[local] Set Elimination Schemes.

(** Two objects drawn at the same place with the same links. *)
Definition same_geometry (a b : PN.t) : Prop :=
  PN.x a = PN.x b /\ PN.y a = PN.y b /\ PN.children a = PN.children b /\
  PN.parent a = PN.parent b /\ PN.indexPath a = PN.indexPath b.

(** Two states of the layout pass that differ in the data and the path
    strings of the nodes at most. *)
Definition same_state (s s' : LayoutState) : Prop :=
  Forall2 same_geometry (store s) (store s') /\
  allNodes s = allNodes s' /\ allEdges s = allEdges s' /\ yCounter s = yCounter s'.

(** What laying out two nodes of the same shape gives. *)
Definition shape_spec (a : TreeNodeData) : Prop :=
  forall b, same_shape a b ->
  forall depth parent parentPath parentPath' ip st st',
    same_state st st' ->
    (layout a depth parent parentPath ip st).1
    = (layout b depth parent parentPath' ip st').1 /\
    same_state (layout a depth parent parentPath ip st).2
      (layout b depth parent parentPath' ip st').2.

(** ** Examples used below *)

Definition leafA : TreeNodeData := mkTreeNodeData "A" "a" (Some []) None.
Definition leafB : TreeNodeData := mkTreeNodeData "B" "b" (Some []) None.
Definition bareA : TreeNodeData := mkTreeNodeData "A" "a" None None.
Definition treeX : KnowledgeTree := mkKnowledgeTree "X" "d" [leafA; leafB].

(** Two subtopics with the same title. *)
Definition treeTwins : KnowledgeTree :=
  mkKnowledgeTree "X" "d"
    [mkTreeNodeData "A" "the first" (Some []) None;
     mkTreeNodeData "A" "the second" (Some []) None].

(** * Properties *)

(** ** Induction over a tree and the sequences of subtopics in it *)

Lemma TreeNodeData_ind (P : TreeNodeData -> Prop) :
  (forall node, Forall P (subtopics_or_empty node) -> P node) ->
  forall node, P node.
Proof.
  intros step.
  fix IH 1. intros [t d subs l]. apply step.
  destruct subs as [subs|]; [|constructor].
  cbn. induction subs as [|c subs IHsubs]; constructor; [apply IH | exact IHsubs].
Qed.

(** ** Reading a sequence at an integer index *)

Lemma nth_Z_Some {A} (l : list A) i a :
  nth_Z l i = Some a <-> 0 <= i /\ l !! Z.to_nat i = Some a.
Proof.
  unfold nth_Z. case_bool_decide; [tauto|].
  split; [discriminate | intros [? _]; lia].
Qed.

Lemma nth_Z_bounds {A} (l : list A) i a :
  nth_Z l i = Some a -> 0 <= i < Z.of_nat (length l).
Proof.
  intros [? Hl%lookup_lt_Some]%nth_Z_Some. lia.
Qed.

Lemma nth_Z_beyond {A} (l : list A) i :
  Z.of_nat (length l) <= i -> nth_Z l i = None.
Proof.
  intros. destruct (nth_Z l i) eqn:E; [|done].
  apply nth_Z_bounds in E. lia.
Qed.

Lemma nth_Z_of_nat {A} (l : list A) (k : nat) : nth_Z l (Z.of_nat k) = l !! k.
Proof.
  unfold nth_Z. rewrite bool_decide_true by lia. by rewrite Nat2Z.id.
Qed.

(** ** The tree store *)

Lemma updateNodeState_length nodes path u :
  length (updateNodeState nodes path u) = length nodes.
Proof.
  destruct path as [|i rest]; [done|]. cbn.
  case_bool_decide; [done|]. apply length_imap.
Qed.

(** One level of the update, read at any index. *)
Lemma updateNodeState_nth nodes i rest u j :
  nth_Z (updateNodeState nodes (i :: rest) u) j =
  if bool_decide (j = i) then rebuild rest u <$> nth_Z nodes j else nth_Z nodes j.
Proof.
  cbn [updateNodeState]. case_bool_decide as Hlen.
  - case_bool_decide; [|done]. subst j. by rewrite nth_Z_beyond.
  - unfold nth_Z. case_bool_decide as Hj; [|by case_bool_decide].
    rewrite list_lookup_imap.
    destruct (nodes !! Z.to_nat j) as [node|]; cbn; [|by case_bool_decide].
    rewrite Z2Nat.id by done. by case_bool_decide.
Qed.

(** The update leaves the sequence as it is when it rebuilds the selected
    node into itself. *)
Lemma updateNodeState_fixed nodes i rest u :
  (forall node, nth_Z nodes i = Some node -> rebuild rest u node = node) ->
  updateNodeState nodes (i :: rest) u = nodes.
Proof.
  intros Hfix. cbn [updateNodeState]. case_bool_decide; [done|].
  apply list_eq; intros k. rewrite list_lookup_imap.
  destruct (nodes !! k) as [node|] eqn:Hk; [cbn|done].
  case_bool_decide as Hi; [|done]. subst i.
  f_equal. apply Hfix. by rewrite nth_Z_of_nat.
Qed.

Lemma with_subtopics_same node subs :
  subtopics node = Some subs -> with_subtopics node subs = node.
Proof. destruct node; cbn; by intros ->. Qed.

(** The update of an out-of-bounds path that meets a [subtopics] field at
    every node it passes through gives the sequence back. *)
Lemma updateNodeState_out_of_bounds nodes path u :
  out_of_bounds nodes path -> containers_present nodes path ->
  updateNodeState nodes path u = nodes.
Proof.
  revert nodes. induction path as [|i rest IH]; intros nodes Hout Hpres; [done|].
  apply updateNodeState_fixed. intros node Hnode.
  cbn in Hout, Hpres. rewrite Hnode in Hout, Hpres.
  destruct rest as [|i' rest']; [done|].
  destruct Hpres as [[subs Hsubs] Hpres].
  unfold rebuild. rewrite IH by done.
  apply with_subtopics_same. unfold subtopics_or_empty. by rewrite Hsubs.
Qed.

(** (C1, as stated) fails: on a node without a [subtopics] field, a path
    that goes one level too deep leaves an empty [subtopics] behind. *)
Lemma applyAt_out_of_bounds_changes_tree :
  let tree := mkKnowledgeTree "X" "d" [bareA] in
  out_of_bounds (root_subtopics tree) [0; 0] /\
  applyAt tree [0; 0] markLoading =
    mkKnowledgeTree "X" "d" [mkTreeNodeData "A" "a" (Some []) None] /\
  applyAt tree [0; 0] markLoading <> tree.
Proof. cbn. split; [exact I|]. split; [reflexivity | discriminate]. Qed.

(** On an out-of-bounds path the updater is never called. *)
Lemma updateNodeState_out_of_bounds_ignores nodes path u v :
  out_of_bounds nodes path ->
  updateNodeState nodes path u = updateNodeState nodes path v.
Proof.
  revert nodes. induction path as [|i rest IH]; intros nodes Hout; [done|].
  cbn [updateNodeState]. case_bool_decide; [done|].
  apply imap_ext. intros j node Hj. cbn. case_bool_decide as Hi; [|done]. subst i.
  cbn in Hout. rewrite nth_Z_of_nat, Hj in Hout.
  destruct rest as [|i' rest']; [done|]. by rewrite (IH _ Hout).
Qed.

(** (C1, amended) For every tree, every updater and every index path that
    is out of bounds at some depth, [applyAt] calls the updater on no node
    (any other updater gives the same result) and, if each node the path
    passes through before that depth has its [subtopics] field present,
    returns a tree equal to the input; being a total function, it never
    throws. *)
Theorem applyAt_out_of_bounds_noop tree indexPath updater :
  out_of_bounds (root_subtopics tree) indexPath ->
  (containers_present (root_subtopics tree) indexPath ->
   applyAt tree indexPath updater = tree) /\
  (forall other, applyAt tree indexPath updater = applyAt tree indexPath other).
Proof.
  intros Hout. split.
  - intros Hpres. destruct tree as [t d subs]. unfold applyAt. cbn in *.
    f_equal. by apply updateNodeState_out_of_bounds.
  - intros other. unfold applyAt. f_equal.
    by apply updateNodeState_out_of_bounds_ignores.
Qed.

Lemma applyAt_out_of_bounds_noop_witness :
  let tree := mkKnowledgeTree "X" "d" [leafA; leafB] in
  applyAt tree [1; 3; 0] markLoading = tree.
Proof.
  apply (applyAt_out_of_bounds_noop (mkKnowledgeTree "X" "d" [leafA; leafB])
           [1; 3; 0] markLoading I).
  cbn. split; [by eexists | exact I].
Defined.

(** (C6, as stated) fails: with the empty path the node addressed in the
    result is not the updated root. *)
Lemma applyAt_empty_path_skips_updater :
  node_at (applyAt treeX [] markLoading) [] <> Some (markLoading (rootDataNode treeX)).
Proof. cbn. discriminate. Qed.

(** (C6, amended) For every tree and every updater, [applyAt] called with
    the empty index path returns the tree as it is: the updater is applied
    to no node, the root included. *)
Theorem applyAt_empty_path tree updater : applyAt tree [] updater = tree.
Proof. by destruct tree. Qed.

(** *** The frame of an update *)

Lemma subtopics_or_empty_with node subs :
  subtopics_or_empty (with_subtopics node subs) = subs.
Proof. done. Qed.

(** A node on a path that parts from the updated one is read back unchanged. *)
Lemma updateNodeState_frame nodes p u q :
  diverge p q -> get_node (updateNodeState nodes p u) q = get_node nodes q.
Proof.
  revert nodes q. induction p as [|i rest IH]; intros nodes q [Hpq Hqp].
  { destruct Hpq. apply prefix_nil. }
  destruct q as [|j qrest]; [destruct Hqp; apply prefix_nil|].
  cbn [get_node]. rewrite updateNodeState_nth.
  case_bool_decide as Hj; [subst j|done].
  destruct (nth_Z nodes i) as [node|]; [cbn|done].
  destruct qrest as [|j' q'].
  { destruct Hqp. apply prefix_cons, prefix_nil. }
  destruct rest as [|i' rest'].
  { destruct Hpq. apply prefix_cons, prefix_nil. }
  cbn [rebuild]. rewrite subtopics_or_empty_with. apply IH. split.
  - intros H. apply Hpq. by apply prefix_cons.
  - intros H. apply Hqp. by apply prefix_cons.
Qed.

(** The node at the updated path is the updater's image of the old one. *)
Lemma updateNodeState_target nodes p u :
  get_node (updateNodeState nodes p u) p = u <$> get_node nodes p.
Proof.
  revert nodes. induction p as [|i rest IH]; intros nodes; [done|].
  cbn [get_node]. rewrite updateNodeState_nth, bool_decide_true by done.
  destruct (nth_Z nodes i) as [node|]; [cbn|done].
  destruct rest as [|i' rest']; [done|].
  cbn [rebuild]. rewrite subtopics_or_empty_with. apply IH.
Qed.

(** A node above the updated one is rebuilt around its new subtopics. *)
Lemma updateNodeState_ancestor nodes q r u :
  q <> [] -> r <> [] ->
  get_node (updateNodeState nodes (q ++ r) u) q =
  (fun n => with_subtopics n (updateNodeState (subtopics_or_empty n) r u))
    <$> get_node nodes q.
Proof.
  intros Hq Hr. revert nodes. induction q as [|i q' IH]; intros nodes; [done|].
  cbn [app get_node]. rewrite updateNodeState_nth, bool_decide_true by done.
  destruct (nth_Z nodes i) as [node|]; [cbn|done].
  destruct q' as [|i' q''].
  - cbn. by destruct r.
  - cbn [app rebuild]. rewrite subtopics_or_empty_with. by apply IH.
Qed.

Lemma in_bounds_app nodes q r :
  q <> [] -> in_bounds nodes (q ++ r) ->
  exists n, get_node nodes q = Some n /\ in_bounds (subtopics_or_empty n) r.
Proof.
  intros Hq. revert nodes. induction q as [|i q' IH]; intros nodes Hin; [done|].
  cbn in Hin |- *. destruct (nth_Z nodes i) as [node|]; [|done].
  destruct q' as [|i' q'']; [by exists node|]. by apply IH.
Qed.

Lemma in_bounds_get_node nodes p :
  p <> [] -> in_bounds nodes p -> is_Some (get_node nodes p).
Proof.
  intros Hp Hin. rewrite <- (app_nil_r p) in Hin.
  destruct (in_bounds_app _ _ _ Hp Hin) as (n & Hn & _). by exists n.
Qed.

Lemma get_node_in_bounds nodes p n : get_node nodes p = Some n -> in_bounds nodes p.
Proof.
  revert nodes. induction p as [|i rest IH]; intros nodes; [done|].
  cbn. destruct (nth_Z nodes i) as [node|]; [|done].
  destruct rest; [done|]. apply IH.
Qed.

Lemma diverge_nonempty p q : diverge p q -> p <> [] /\ q <> [].
Proof.
  intros [Hpq Hqp]. split; intros ->; [apply Hpq | apply Hqp]; apply prefix_nil.
Qed.

Lemma node_at_get_node tree p : p <> [] -> node_at tree p = get_node (root_subtopics tree) p.
Proof. by destruct p. Qed.

(** (C2) For every tree, every in-bounds index path and every updater,
    [applyAt] changes only the addressed node and, as containers, the nodes
    above it: a node on any path that parts from the index path is read
    back equal (with its whole subtree); the addressed node becomes the
    updater's image of the old one; a node above it keeps its title,
    description and loading flag and the length of its subtopics. *)
Theorem applyAt_frame tree indexPath updater :
  in_bounds (root_subtopics tree) indexPath ->
  (forall q, diverge indexPath q ->
     node_at (applyAt tree indexPath updater) q = node_at tree q) /\
  (indexPath <> [] ->
     node_at (applyAt tree indexPath updater) indexPath
     = updater <$> node_at tree indexPath) /\
  (forall q r, indexPath = q ++ r -> r <> [] ->
     exists n n',
       node_at tree q = Some n /\
       node_at (applyAt tree indexPath updater) q = Some n' /\
       title n' = title n /\ description n' = description n /\
       _isLoading n' = _isLoading n /\
       length (subtopics_or_empty n') = length (subtopics_or_empty n)).
Proof.
  intros Hin. split; [|split].
  - intros q Hdiv. destruct (diverge_nonempty _ _ Hdiv) as [_ Hq].
    rewrite !node_at_get_node by done. by apply updateNodeState_frame.
  - intros Hp. rewrite !node_at_get_node by done. apply updateNodeState_target.
  - intros q r -> Hr. destruct q as [|i q'].
    + exists (rootDataNode tree), (rootDataNode (applyAt tree r updater)).
      repeat split. cbn. apply updateNodeState_length.
    + destruct (in_bounds_app _ (i :: q') r ltac:(done) Hin) as (n & Hn & _).
      exists n, (with_subtopics n (updateNodeState (subtopics_or_empty n) r updater)).
      rewrite !node_at_get_node by done. cbn [applyAt root_subtopics].
      rewrite updateNodeState_ancestor, Hn by done.
      repeat split. cbn. apply updateNodeState_length.
Qed.

Lemma applyAt_frame_witness :
  node_at (applyAt treeX [0] markLoading) [1] = node_at treeX [1] /\
  node_at (applyAt treeX [0] markLoading) [0] = markLoading <$> node_at treeX [0].
Proof.
  assert (Hin : in_bounds (root_subtopics treeX) [0]) by exact I.
  destruct (applyAt_frame treeX [0] markLoading Hin) as (Hframe & Htarget & _).
  split; [apply Hframe | by apply Htarget].
  split; intros [k Hk]; discriminate Hk.
Defined.

(** *** The updater closures *)

(** (C9, as stated) fails: a node without the flag is not loading, and the
    updater gives it a flag it did not have. *)
Lemma clearLoadingOnly_adds_absent_flag :
  is_loading leafA = false /\ clearLoadingOnly leafA <> leafA.
Proof. split; [reflexivity | discriminate]. Qed.

(** (C9, amended) For every node whose [_isLoading] flag is present and
    false, the [clearLoadingOnly] updater yields a node equal to the input;
    for a node that is not loading because the flag is absent, the result
    has the same title, description and subtopics and reads as not loading,
    with the flag now present. *)
Theorem clearLoadingOnly_not_loading node :
  is_loading node = false ->
  (is_Some (_isLoading node) -> clearLoadingOnly node = node) /\
  title (clearLoadingOnly node) = title node /\
  description (clearLoadingOnly node) = description node /\
  subtopics (clearLoadingOnly node) = subtopics node /\
  _isLoading (clearLoadingOnly node) = Some false /\
  is_loading (clearLoadingOnly node) = is_loading node.
Proof.
  destruct node as [t d subs [b|]]; unfold is_loading; cbn; intros Hb.
  - subst b. by repeat split.
  - repeat split. by intros [? ?].
Qed.

Lemma clearLoadingOnly_not_loading_witness :
  clearLoadingOnly (mkTreeNodeData "A" "a" (Some []) (Some false))
  = mkTreeNodeData "A" "a" (Some []) (Some false).
Proof.
  apply (clearLoadingOnly_not_loading (mkTreeNodeData "A" "a" (Some []) (Some false)));
    [reflexivity | by eexists].
Defined.

(** *** Updates at the same path compose *)

Lemma updateNodeState_ext nodes p u v :
  (forall n, u n = v n) -> updateNodeState nodes p u = updateNodeState nodes p v.
Proof.
  intros Huv. revert nodes. induction p as [|i rest IH]; intros nodes; [done|].
  cbn [updateNodeState]. case_bool_decide; [done|].
  apply imap_ext. intros k node _. cbn. case_bool_decide; [|done].
  destruct rest; [apply Huv|]. by rewrite IH.
Qed.

Lemma updateNodeState_compose nodes p u v :
  updateNodeState (updateNodeState nodes p u) p v
  = updateNodeState nodes p (fun n => v (u n)).
Proof.
  revert nodes. induction p as [|i rest IH]; intros nodes; [done|].
  pose proof (updateNodeState_length nodes (i :: rest) u) as Hlen.
  cbn [updateNodeState] in Hlen |- *. case_bool_decide as Hi; [by rewrite bool_decide_true|].
  rewrite length_imap, bool_decide_false by done.
  apply list_eq; intros k. rewrite !list_lookup_imap.
  destruct (nodes !! k) as [node|]; [cbn|done]. f_equal.
  case_bool_decide; [|done].
  destruct rest as [|i' rest']; [done|].
  rewrite subtopics_or_empty_with, IH. done.
Qed.

Lemma applyAt_compose tree p u v :
  applyAt (applyAt tree p u) p v = applyAt tree p (fun n => v (u n)).
Proof. unfold applyAt. cbn. by rewrite updateNodeState_compose. Qed.

(** ** The expansion life cycle *)

Lemma canExpand_leaf node :
  canExpand node = true <-> subtopics_or_empty (PN.nodeData node) = [].
Proof.
  unfold canExpand, subtopics_or_empty.
  destruct (subtopics (PN.nodeData node)) as [[|c subs]|]; cbn; naive_solver.
Qed.

(** A request that fails on the tree it was issued on: mark, then clear. *)
Lemma handleExpand_request_then_failure st tree path nodeTitle message :
  treeData st = Some tree ->
  treeData (handleExpand_settle path (Failed message)
              (handleExpand_request path nodeTitle st))
  = Some (applyAt tree path clearLoadingOnly).
Proof.
  intros Htree. unfold handleExpand_request. rewrite Htree. cbn.
  rewrite applyAt_compose. done.
Qed.

(** (C7) For every tree and every in-bounds index path, when the expansion
    request for that path fails, the tree becomes one that equals the prior
    tree except for the loading flag of the target: the target keeps its
    title, description and subtopics and is not loading; overwriting the
    target's flag makes the two trees equal; every node off the path is
    read back equal; a target without children is expanded again by the
    next click; and the error message is set. *)
Theorem handleExpand_failure st tree indexPath message :
  treeData st = Some tree ->
  in_bounds (root_subtopics tree) indexPath ->
  exists tree' n n',
    treeData (handleExpand_settle indexPath (Failed message) st) = Some tree' /\
    error (handleExpand_settle indexPath (Failed message) st) = Some message /\
    node_at tree indexPath = Some n /\
    node_at tree' indexPath = Some n' /\
    title n' = title n /\ description n' = description n /\
    subtopics n' = subtopics n /\ is_loading n' = false /\
    (forall b, applyAt tree' indexPath (fun node => with_isLoading node b)
               = applyAt tree indexPath (fun node => with_isLoading node b)) /\
    (forall q, diverge indexPath q -> node_at tree' q = node_at tree q) /\
    (forall node, PN.nodeData node = n' -> subtopics_or_empty n = [] ->
       handleNodeClick node = [OnSelect node; OnExpand (PN.indexPath node) (title n)]).
Proof.
  intros Htree Hin.
  exists (applyAt tree indexPath clearLoadingOnly).
  destruct indexPath as [|i rest].
  - exists (rootDataNode tree), (rootDataNode tree).
    cbn [handleExpand_settle treeData error]. rewrite Htree.
    repeat split; try done.
    intros node Hnode Hleaf. unfold handleNodeClick.
    assert (canExpand node = true) as ->.
    { apply canExpand_leaf. rewrite Hnode. exact Hleaf. }
    by rewrite Hnode.
  - destruct (in_bounds_get_node _ (i :: rest) ltac:(done) Hin) as [n Hn].
    exists n, (clearLoadingOnly n).
    assert (forall q, diverge (i :: rest) q ->
              node_at (applyAt tree (i :: rest) clearLoadingOnly) q = node_at tree q)
      as Hframe.
    { intros q Hdiv. destruct (diverge_nonempty _ _ Hdiv) as [_ Hq].
      rewrite !node_at_get_node by done. by apply updateNodeState_frame. }
    assert (i :: rest <> [] ->
            node_at (applyAt tree (i :: rest) clearLoadingOnly) (i :: rest)
            = clearLoadingOnly <$> node_at tree (i :: rest)) as Htarget.
    { intros Hp. rewrite !node_at_get_node by done. apply updateNodeState_target. }
    cbn [handleExpand_settle treeData error]. rewrite Htree.
    rewrite Htarget by done. rewrite node_at_get_node, Hn by done.
    repeat split; try done.
    + intros b. by rewrite applyAt_compose.
    + intros node Hnode Hleaf. unfold handleNodeClick.
      assert (canExpand node = true) as ->.
      { apply canExpand_leaf. rewrite Hnode. exact Hleaf. }
      by rewrite Hnode.
Qed.

Lemma handleExpand_failure_witness :
  exists tree',
    treeData (handleExpand_settle [0] (Failed "network")
                (mkAppState (Some (applyAt treeX [0] markLoading)) None [([0], "A")]))
    = Some tree' /\
    node_at tree' [0] = Some (mkTreeNodeData "A" "a" (Some []) (Some false)) /\
    node_at tree' [1] = Some leafB.
Proof.
  destruct (handleExpand_failure
              (mkAppState (Some (applyAt treeX [0] markLoading)) None [([0], "A")])
              (applyAt treeX [0] markLoading) [0] "network" eq_refl I)
    as (tree' & n & n' & Ht & _).
  exists tree'. split; [exact Ht|].
  cbn in Ht. injection Ht as <-. split; reflexivity.
Defined.

(** ** The layout pass *)

Lemma size_unfold node : size node = S (sizes (subtopics_or_empty node)).
Proof. destruct node as [t d [subs|] l]; reflexivity. Qed.

Lemma postorder_unfold ip node :
  postorder ip node = postorder_all ip (subtopics_or_empty node) 0 ++ [(ip, node)].
Proof. destruct node as [t d [subs|] l]; reflexivity. Qed.

Lemma leaf_count_leaf node : is_leaf node = true -> leaf_count node = 1%nat.
Proof.
  unfold is_leaf, subtopics_or_empty. destruct node as [t d [[|c subs]|] l]; cbn; try done.
Qed.

Lemma leaf_count_parent node :
  is_leaf node = false -> leaf_count node = leaf_counts (subtopics_or_empty node).
Proof.
  unfold is_leaf, subtopics_or_empty.
  destruct node as [t d [[|c subs]|] l]; cbn; try done.
Qed.



Lemma layout_leaf node depth parent parentPath ip st :
  is_leaf node = true ->
  layout node depth parent parentPath ip st =
  finish (length (store st)) parent
    (place_leaf (length (store st))
       (allocate (fresh_node node depth parent parentPath ip) depth st)).
Proof.
  unfold is_leaf, subtopics_or_empty. destruct node as [t d [[|c subs]|] l]; cbn; try done.
Qed.

Lemma layout_parent node depth parent parentPath ip st :
  is_leaf node = false ->
  layout node depth parent parentPath ip st =
  let self := length (store st) in
  let processedNode := fresh_node node depth parent parentPath ip in
  finish self parent
    (let '(kids, s) :=
       layout_children depth self (PN.path processedNode) ip (subtopics_or_empty node) 0
         (allocate processedNode depth st) in
     place_parent self kids s).
Proof.
  unfold is_leaf, subtopics_or_empty. destruct node as [t d [[|c subs]|] l]; try done.
Qed.

(** *** Stores and the objects they hold *)

Lemma alter_at_length {A} (f : A -> A) (l1 : list A) a l2 :
  alter f (length l1) (l1 ++ a :: l2) = l1 ++ f a :: l2.
Proof.
  replace (length l1) with (length l1 + 0)%nat by lia.
  by rewrite alter_app_r.
Qed.

Lemma holds_at_lookup r new objs x node :
  holds_at r new objs -> (r <= x)%nat -> new !! (x - r)%nat = Some node ->
  objs !! x = Some node.
Proof.
  intros (before & after & -> & <-) Hx Hnode.
  rewrite lookup_app_r by done. by apply lookup_app_l_Some.
Qed.

Lemma holds_at_app r new1 new2 objs :
  holds_at r (new1 ++ new2) objs ->
  holds_at r new1 objs /\ holds_at (r + length new1)%nat new2 objs.
Proof.
  intros (before & after & -> & <-). split.
  - exists before, (new2 ++ after). by rewrite <- app_assoc.
  - exists (before ++ new1), after. rewrite length_app, <- !app_assoc. done.
Qed.

Lemma holds_at_cons r node new objs :
  holds_at r (node :: new) objs ->
  objs !! r = Some node /\ holds_at (S r) new objs.
Proof.
  intros (before & after & -> & <-). split.
  - by rewrite lookup_app_r, Nat.sub_diag.
  - exists (before ++ [node]), after. rewrite length_app, <- !app_assoc. cbn.
    split; [done | lia].
Qed.

Lemma holds_at_self new : holds_at 0%nat new new.
Proof. exists [], []. by rewrite app_nil_r. Qed.

Lemma deref_app objs o1 o2 : deref objs (o1 ++ o2) = deref objs o1 ++ deref objs o2.
Proof. apply omap_app. Qed.

Lemma leaf_nodes_app objs o1 o2 :
  leaf_nodes objs (o1 ++ o2) = leaf_nodes objs o1 ++ leaf_nodes objs o2.
Proof. unfold leaf_nodes. by rewrite deref_app, filter_app. Qed.

Lemma leaf_nodes_singleton objs r node :
  objs !! r = Some node ->
  leaf_nodes objs [r] = if is_leaf (PN.nodeData node) then [node] else [].
Proof.
  intros Hr. unfold leaf_nodes, deref. cbn. rewrite Hr. cbn.
  destruct (is_leaf (PN.nodeData node)); by case_decide.
Qed.

Lemma counter_after_add yc n1 n2 :
  counter_after yc (n1 + n2)%nat = counter_after (counter_after yc n1) n2.
Proof. revert yc. induction n1 as [|n1 IH]; intros yc; cbn; [done | apply IH]. Qed.

Lemma counter_values_add yc n1 n2 :
  counter_values yc (n1 + n2)%nat
  = counter_values yc n1 ++ counter_values (counter_after yc n1) n2.
Proof.
  revert yc. induction n1 as [|n1 IH]; intros yc; cbn; [done|]. by rewrite IH.
Qed.

Lemma pass_result_app objs o1 o2 e1 e2 yc n1 n2 :
  pass_result objs o1 e1 yc n1 ->
  pass_result objs o2 e2 (counter_after yc n1) n2 ->
  pass_result objs (o1 ++ o2) (e1 ++ e2) yc (n1 + n2)%nat.
Proof.
  intros (Hv1 & Hy1 & Hc1) (Hv2 & Hy2 & Hc2). split; [|split].
  - by apply Forall2_app.
  - by rewrite leaf_nodes_app, fmap_app, Hy1, Hy2, counter_values_add.
  - by apply Forall_app.
Qed.

(** *** The pass over the subtopics of one parent *)

Lemma postorder_all_cons ip c l index :
  postorder_all ip (c :: l) index
  = postorder (ip ++ [Z.of_nat index]) c ++ postorder_all ip l (S index).
Proof. reflexivity. Qed.

Lemma layout_children_cons depth self own_path ip c l index st :
  layout_children depth self own_path ip (c :: l) index st =
  let '(kid, s1) :=
    layout c (S depth) (Some self) own_path (ip ++ [Z.of_nat index]) st in
  let '(rest, s2) := layout_children depth self own_path ip l (S index) s1 in
  (kid :: rest, s2).
Proof. reflexivity. Qed.

Lemma layout_children_segments l :
  Forall layout_spec l ->
  forall depth self own_path ip index st,
    exists new order es md kids,
      layout_children depth self own_path ip l index st =
        (kids,
         mkLayoutState (store st ++ new) (allNodes st ++ order) es
           (counter_after (yCounter st) (leaf_counts l)) md) /\
      Segments ip l index (length (store st)) (yCounter st) new order kids.
Proof.
  induction 1 as [|c l Hc _ IH]; intros depth self own_path ip index st.
  - exists [], [], (allEdges st), (maxDepth st), []. split.
    + destruct st; cbn. by rewrite !app_nil_r.
    + constructor; cbn; [done | done | constructor |].
      intros objs _. repeat split; constructor.
  - destruct (Hc (S depth) (Some self) own_path (ip ++ [Z.of_nat index]) st)
      as (new1 & order1 & es1 & md1 & Heq1 & [Hlen1 Hord1 Hroot1 _ Hres1]).
    rewrite layout_children_cons, Heq1.
    match goal with |- context [layout_children _ _ _ _ l (S index) ?s] =>
      destruct (IH depth self own_path ip (S index) s)
        as (new2 & order2 & es2 & md2 & kids2 & Heq2 & [Hlen2 Hord2 Hkids2 Hres2])
    end.
    rewrite Heq2. cbn [store allNodes yCounter] in *.
    exists (new1 ++ new2), (order1 ++ order2), es2, md2, (length (store st) :: kids2).
    rewrite length_app in *. split.
    + cbn [leaf_counts]. by rewrite !app_assoc, counter_after_add.
    + constructor.
      * rewrite length_app. cbn [sizes]. lia.
      * cbn [sizes]. rewrite seq_app. apply Permutation_app; [done|].
        by rewrite <- Hlen1.
      * cbn [length seq]. constructor.
        -- split; [lia|]. destruct Hroot1 as (own & Hown & Hip). exists own.
           rewrite Nat.sub_diag. split; [by apply lookup_app_l_Some | done].
        -- eapply Forall2_impl; [exact Hkids2|].
           intros k i [Hk (kid & Hkid & Hip)]. split; [lia|]. exists kid.
           split; [|done]. rewrite lookup_app_r by lia. rewrite <- Hkid. f_equal. lia.
      * intros objs [H1 H2]%holds_at_app. rewrite postorder_all_cons.
        cbn [leaf_counts]. apply pass_result_app; [by apply Hres1 | by apply Hres2].
Qed.

(** *** The pass over a subtree *)

Lemma layout_segment_leaf node depth parent parentPath ip st :
  is_leaf node = true ->
  exists new order es md,
    layout node depth parent parentPath ip st =
      (length (store st),
       mkLayoutState (store st ++ new) (allNodes st ++ order) es
         (counter_after (yCounter st) (leaf_count node)) md) /\
    Segment ip node (length (store st)) (yCounter st) new order.
Proof.
  intros Hleaf.
  assert (subtopics_or_empty node = []) as Hsubs
    by (by apply bool_decide_eq_true in Hleaf).
  rewrite layout_leaf by done.
  eexists [_], [_], _, _. split.
  - unfold finish, place_leaf, allocate. cbn.
    rewrite alter_at_length, leaf_count_leaf by done. reflexivity.
  - constructor.
    + by rewrite size_unfold, Hsubs.
    + by rewrite size_unfold, Hsubs.
    + by eexists.
    + done.
    + intros objs [Hr _]%holds_at_cons.
      rewrite postorder_unfold, Hsubs, leaf_count_leaf by done. split; [|split].
      * constructor; [|constructor]. by eexists.
      * rewrite (leaf_nodes_singleton _ _ _ Hr). cbn. by rewrite Hleaf.
      * constructor; [|constructor]. intros own Hown Hl.
        rewrite Hr in Hown. injection Hown as <-. cbn in Hl. congruence.
Qed.

Lemma layout_segment_parent node depth parent parentPath ip st :
  is_leaf node = false ->
  Forall layout_spec (subtopics_or_empty node) ->
  exists new order es md,
    layout node depth parent parentPath ip st =
      (length (store st),
       mkLayoutState (store st ++ new) (allNodes st ++ order) es
         (counter_after (yCounter st) (leaf_count node)) md) /\
    Segment ip node (length (store st)) (yCounter st) new order.
Proof.
  intros Hleaf IH.
  rewrite layout_parent by done. cbn zeta.
  set (fresh := fresh_node node depth parent parentPath ip).
  destruct (layout_children_segments _ IH depth (length (store st)) (PN.path fresh)
              ip 0%nat (allocate fresh depth st))
    as (newk & orderk & es & md & kids & Heq & [Hlen Hord Hkids Hres]).
  rewrite Heq. cbn [allocate store allNodes yCounter] in *.
  rewrite length_app in *. cbn [length] in *.
  replace (length (store st) + 1)%nat with (S (length (store st))) in * by lia.
  assert (exists c subs, subtopics_or_empty node = c :: subs) as (c & subs & Hsubs).
  { apply bool_decide_eq_false in Hleaf.
    destruct (subtopics_or_empty node) as [|c subs]; [done | by eexists _, _]. }
  (* the first and the last reference returned *)
  pose proof (Forall2_length _ _ _ Hkids) as Hklen. rewrite length_seq in Hklen.
  destruct kids as [|f kids']; [by rewrite Hsubs in Hklen|].
  assert (exists l, last (f :: kids') = Some l) as [l Hlast].
  { destruct (last (f :: kids')) eqn:E; [by eexists | by apply last_None in E]. }
  assert ((length (store st) < f)%nat /\ exists firstChild,
            newk !! (f - S (length (store st)))%nat = Some firstChild /\
            PN.indexPath firstChild = ip ++ [0]) as (Hf & firstChild & Hfirst & Hfip).
  { rewrite Hsubs in Hkids. cbn in Hkids.
    apply Forall2_cons_1 in Hkids as [[? (kid & ? & ?)] _]. split; [lia | by exists kid]. }
  assert ((length (store st) < l)%nat /\ exists lastChild,
            newk !! (l - S (length (store st)))%nat = Some lastChild /\
            PN.indexPath lastChild
            = ip ++ [Z.of_nat (length (subtopics_or_empty node)) - 1])
    as (Hl & lastChild & Hlastc & Hlip).
  { pose proof Hlast as Hpos. rewrite last_lookup in Hpos.
    destruct (Forall2_lookup_l _ _ _ _ _ Hkids Hpos) as (i & Hi & ? & kid & ? & Hkip).
    apply lookup_seq in Hi as [-> ?]. split; [lia|]. exists kid. split; [done|].
    rewrite Hkip, <- Hklen. cbn [length Nat.pred Nat.add]. f_equal. f_equal. lia. }
  unfold place_parent, finish. cbn [head store allNodes allEdges yCounter maxDepth].
  rewrite Hlast. cbn [store allNodes allEdges yCounter maxDepth].
  rewrite <- !app_assoc. cbn [app]. rewrite !alter_at_length.
  set (objs0 := store st ++ set_children (f :: kids') fresh :: newk).
  assert (holds_at (S (length (store st))) newk objs0) as Hobjs0.
  { exists (store st ++ [set_children (f :: kids') fresh]), [].
    unfold objs0. rewrite length_app, app_nil_r, <- app_assoc. split; [done | cbn; lia]. }
  assert (forall objs, holds_at (S (length (store st))) newk objs ->
            objs !! f = Some firstChild /\ objs !! l = Some lastChild) as Hends.
  { intros objs Hobjs. split; eapply holds_at_lookup; try exact Hobjs; done || lia. }
  destruct (Hends _ Hobjs0) as [Hf0 Hl0].
  unfold y_of. rewrite Hf0, Hl0. cbn [from_option].
  eexists (_ :: newk), (orderk ++ [length (store st)]), _, _. split.
  - rewrite leaf_count_parent, app_assoc by done. reflexivity.
  - constructor.
    + rewrite size_unfold. cbn. by rewrite Hlen.
    + rewrite size_unfold. cbn [seq]. rewrite <- Permutation_cons_append.
      by constructor.
    + by eexists.
    + by rewrite last_snoc.
    + intros objs [Hown Hobjs]%holds_at_cons.
      rewrite postorder_unfold, leaf_count_parent by done.
      rewrite <- (Nat.add_0_r (leaf_counts _)).
      apply pass_result_app; [by apply Hres|].
      split; [|split].
      * constructor; [|constructor]. by eexists.
      * rewrite (leaf_nodes_singleton _ _ _ Hown). cbn. by rewrite Hleaf.
      * constructor; [|constructor]. intros own Hown' _.
        rewrite Hown in Hown'. injection Hown' as <-. cbn.
        exists f, l, firstChild, lastChild. rewrite Hlast.
        destruct (Hends _ Hobjs) as [-> ->]. repeat split; done.
Qed.

Lemma layout_segment node : layout_spec node.
Proof.
  induction node as [node IH] using TreeNodeData_ind.
  intros depth parent parentPath ip st.
  destruct (is_leaf node) eqn:Hleaf.
  - by apply layout_segment_leaf.
  - by apply layout_segment_parent.
Qed.

(** ** The post-order enumeration of a tree *)

Lemma descend_cons node i q :
  descend node (i :: q) = nth_Z (subtopics_or_empty node) i ≫= fun c => descend c q.
Proof.
  cbn. destruct (nth_Z (subtopics_or_empty node) i) as [c|]; [cbn|done]. by destruct q.
Qed.

Lemma nth_Z_lookup {A} (l : list A) i a :
  nth_Z l i = Some a <-> exists k : nat, i = Z.of_nat k /\ l !! k = Some a.
Proof.
  rewrite nth_Z_Some. split.
  - intros [Hi Ha]. exists (Z.to_nat i). split; [lia | done].
  - intros (k & -> & Ha). rewrite Nat2Z.id. split; [lia | done].
Qed.

Lemma elem_of_postorder_all l :
  Forall postorder_holds l ->
  forall ip index p d,
    (p, d) ∈ postorder_all ip l index <->
    exists (k : nat) c q,
      l !! k = Some c /\ p = ip ++ Z.of_nat (index + k) :: q /\ descend c q = Some d.
Proof.
  induction 1 as [|c l Hc _ IH]; intros ip index p d.
  - cbn. split; [by intros ?%elem_of_nil | by intros (k & ? & ? & ? & _)].
  - unfold postorder_holds in Hc.
    rewrite postorder_all_cons, elem_of_app, Hc, IH. split.
    + intros [(q & -> & Hq) | (k & c' & q & Hk & -> & Hq)].
      * exists 0%nat, c, q. rewrite Nat.add_0_r, <- app_assoc. done.
      * exists (S k), c', q. repeat split; try done. do 3 f_equal. lia.
    + intros ([|k] & c' & q & Hk & -> & Hq).
      * left. injection Hk as <-. exists q. rewrite Nat.add_0_r, <- app_assoc. done.
      * right. exists k, c', q. repeat split; try done. do 3 f_equal. lia.
Qed.

Lemma elem_of_postorder node : postorder_holds node.
Proof.
  induction node as [node IH] using TreeNodeData_ind. intros ip p d.
  rewrite postorder_unfold, elem_of_app, elem_of_postorder_all, list_elem_of_singleton
    by done.
  split.
  - intros [(k & c & q & Hk & -> & Hq) | [= -> ->]].
    + exists (Z.of_nat k :: q). split; [done|].
      rewrite descend_cons, nth_Z_of_nat, Hk. done.
    + exists []. by rewrite app_nil_r.
  - intros ([|i q] & -> & Hq).
    + right. rewrite app_nil_r. cbn in Hq. by injection Hq as ->.
    + left. rewrite descend_cons in Hq.
      destruct (nth_Z (subtopics_or_empty node) i) as [c|] eqn:Hi; [cbn in Hq|done].
      apply nth_Z_lookup in Hi as (k & -> & Hk). by exists k, c, q.
Qed.

Lemma postorder_length ip node : length (postorder ip node) = size node.
Proof.
  revert ip. induction node as [node IH] using TreeNodeData_ind. intros ip.
  rewrite postorder_unfold, size_unfold, length_app. cbn.
  enough (forall index, length (postorder_all ip (subtopics_or_empty node) index)
                        = sizes (subtopics_or_empty node)) as -> by lia.
  induction IH as [|c l Hc _ IHl]; intros index; [done|].
  rewrite postorder_all_cons, length_app, Hc, IHl. done.
Qed.

Lemma postorder_path ip node p d : (p, d) ∈ postorder ip node -> exists q, p = ip ++ q.
Proof. intros (q & ? & _)%elem_of_postorder. by exists q. Qed.

Lemma postorder_all_path ip l index p d :
  (p, d) ∈ postorder_all ip l index ->
  exists (k : nat) q, p = ip ++ Z.of_nat k :: q /\ (index <= k)%nat.
Proof.
  intros Hp. apply elem_of_postorder_all in Hp as (k & c & q & _ & -> & _).
  - exists (index + k)%nat, q. split; [done | lia].
  - apply Forall_forall. intros. apply elem_of_postorder.
Qed.

Lemma app_cons_ne (ip : list Z) k q : ip ++ k :: q <> ip.
Proof. intros H%(f_equal length). rewrite length_app in H. cbn in H. lia. Qed.

Lemma sibling_paths_differ (ip : list Z) (index k : nat) q q' :
  (S index <= k)%nat -> (ip ++ [Z.of_nat index]) ++ q <> ip ++ Z.of_nat k :: q'.
Proof.
  intros Hk. rewrite <- app_assoc. intros H%app_inv_head. cbn in H.
  injection H as H _. lia.
Qed.

Lemma postorder_NoDup ip node : NoDup (postorder ip node).*1.
Proof.
  revert ip. induction node as [node IH] using TreeNodeData_ind. intros ip.
  rewrite postorder_unfold, fmap_app. apply NoDup_app. split; [|split].
  - generalize 0%nat.
    induction IH as [|c l Hc _ IHl]; intros index; [constructor|].
    rewrite postorder_all_cons, fmap_app. apply NoDup_app. split; [done|].
    split; [|done].
    intros p ([p1 d1] & -> & (q & ->)%postorder_path)%list_elem_of_fmap.
    intros ([p2 d2] & Heq & (k & q' & -> & Hk)%postorder_all_path)%list_elem_of_fmap.
    cbn in Heq. by apply sibling_paths_differ in Heq.
  - intros p ([p1 d1] & -> & (k & q & -> & _)%postorder_all_path)%list_elem_of_fmap.
    cbn. intros Heq%list_elem_of_singleton. by apply app_cons_ne in Heq.
  - cbn. apply NoDup_singleton.
Qed.

Lemma postorder_descendants_first ip node : descendants_first (postorder ip node).
Proof.
  revert ip. induction node as [node IH] using TreeNodeData_ind. intros ip.
  rewrite postorder_unfold.
  assert (forall index, descendants_first (postorder_all ip (subtopics_or_empty node) index))
    as Hall.
  { induction IH as [|c l Hc _ IHl]; intros index.
    { intros i j a b Hi. by destruct i. }
    rewrite postorder_all_cons. intros i j [pa da] [pb db] Hi Hj Hpre.
    apply lookup_app_Some in Hi as [Hi | [Hi1 Hi2]];
      apply lookup_app_Some in Hj as [Hj | [Hj1 Hj2]].
    - by apply (Hc _ i j _ _ Hi Hj).
    - apply lookup_lt_Some in Hi. lia.
    - exfalso. apply list_elem_of_lookup_2 in Hi2, Hj.
      apply postorder_all_path in Hi2 as (k & q & -> & Hk).
      apply postorder_path in Hj as (q' & ->).
      destruct Hpre as (r & _ & Heq). cbn in Heq. rewrite <- app_assoc in Heq.
      symmetry in Heq. by apply sibling_paths_differ in Heq.
    - pose proof (IHl (S index) _ _ _ _ Hi2 Hj2 Hpre). lia. }
  intros i j [pa da] [pb db] Hi Hj Hpre.
  apply lookup_app_Some in Hi as [Hi | [Hi1 Hi2]];
    apply lookup_app_Some in Hj as [Hj | [Hj1 Hj2]].
  - by apply (Hall 0%nat i j _ _ Hi Hj).
  - apply lookup_lt_Some in Hi. lia.
  - exfalso. apply list_elem_of_lookup_2 in Hi2, Hj.
    apply list_elem_of_singleton in Hi2 as [= -> ->].
    apply postorder_all_path in Hj as (k & q & -> & _).
    destruct Hpre as (r & _ & Heq). cbn in Heq. rewrite <- app_assoc in Heq. cbn in Heq.
    symmetry in Heq. by apply app_cons_ne in Heq.
  - exfalso. apply list_elem_of_lookup_2 in Hi2, Hj2.
    apply list_elem_of_singleton in Hi2 as [= -> ->].
    apply list_elem_of_singleton in Hj2 as [= -> ->].
    destruct Hpre as (r & Hr & Heq). cbn in Heq.
    rewrite <- (app_nil_r ip) in Heq at 1. apply app_inv_head in Heq. by subst r.
Qed.



(** ** The whole layout *)

Lemma layout_pass_spec tree :
  exists new order es md,
    layout_pass tree =
      (0%nat,
       mkLayoutState new order es
         (counter_after PADDING (leaf_count (rootDataNode tree))) md) /\
    Segment [] (rootDataNode tree) 0 PADDING new order.
Proof.
  destruct (layout_segment (rootDataNode tree) 0%nat None "" [] initialLayoutState)
    as (new & order & es & md & Heq & Hseg).
  exists new, order, es, md. split; [exact Heq | exact Hseg].
Qed.

(** The centering pass reaches every object once. *)
Lemma shift_all_lookup offset order : forall objs r,
  NoDup order ->
  shift_all offset objs order !! r =
  if decide (r ∈ order) then add_y offset <$> objs !! r else objs !! r.
Proof.
  induction order as [|a order IH]; intros objs r Hnd.
  { cbn. by rewrite decide_False by apply not_elem_of_nil. }
  apply NoDup_cons in Hnd as [Ha Hnd]. cbn [shift_all foldl].
  fold (shift_all offset (alter (add_y offset) a objs) order). rewrite IH by done.
  destruct (decide (r = a)) as [->|Hne].
  - rewrite decide_False by done. rewrite decide_True by left.
    rewrite list_lookup_alter. by rewrite decide_True.
  - rewrite list_lookup_alter_ne by done.
    destruct (decide (r ∈ order)) as [Hin|Hnin].
    + by rewrite decide_True by (by right).
    + rewrite decide_False; [done|]. by intros [?|?]%elem_of_cons.
Qed.

Lemma shift_all_fmap offset objs order :
  Permutation order (seq 0 (length objs)) ->
  shift_all offset objs order = add_y offset <$> objs.
Proof.
  intros Hperm. apply list_eq. intros r.
  rewrite shift_all_lookup, list_lookup_fmap.
  - case_decide as Hr; [done|]. rewrite lookup_ge_None_2; [done|].
    destruct (decide (r < length objs)%nat) as [Hlt|]; [|lia].
    destruct Hr. rewrite Hperm. apply elem_of_seq. lia.
  - rewrite Hperm. apply NoDup_seq.
Qed.

Lemma compute_layout_spec tree containerHeight k :
  exists new order es md,
    layout_pass tree =
      (0%nat,
       mkLayoutState new order es
         (counter_after PADDING (leaf_count (rootDataNode tree))) md) /\
    Segment [] (rootDataNode tree) 0 PADDING new order /\
    compute_layout (Some tree) containerHeight k =
      mkLayout (add_y (containerHeight / (2 * k) - y_of new 0%nat)%Q <$> new) order es.
Proof.
  destruct (layout_pass_spec tree) as (new & order & es & md & Heq & Hseg).
  exists new, order, es, md. split; [done|]. split; [done|].
  unfold compute_layout. rewrite Heq. cbn. f_equal.
  apply shift_all_fmap. destruct Hseg as [Hlen Hord _ _ _]. by rewrite Hlen.
Qed.

(** *** Reading the lists through the store *)

Lemma views_as_deref objs order expected :
  views_as objs order expected ->
  (fun node => (PN.indexPath node, PN.nodeData node)) <$> deref objs order = expected.
Proof.
  induction 1 as [|r [p d] order expected (node & Hr & Hp & Hd) _ IH]; [done|].
  unfold deref in *. cbn. rewrite Hr. cbn in *. by rewrite IH, Hp, Hd.
Qed.

Lemma views_as_shift offset objs order expected :
  views_as objs order expected -> views_as (add_y offset <$> objs) order expected.
Proof.
  intros Hv. eapply Forall2_impl; [exact Hv|]. intros r pd (node & Hr & Hp & Hd).
  exists (add_y offset node). rewrite list_lookup_fmap, Hr. done.
Qed.







Lemma node_at_descend tree p : node_at tree p = descend (rootDataNode tree) p.
Proof. by destruct p. Qed.

Lemma rendered_listed tree containerHeight k :
  (fun node => (PN.indexPath node, PN.nodeData node))
    <$> rendered (compute_layout (Some tree) containerHeight k)
  = postorder [] (rootDataNode tree).
Proof.
  destruct (compute_layout_spec tree containerHeight k)
    as (new & order & es & md & _ & [_ _ _ _ Hres] & Hlay).
  destruct (Hres new (holds_at_self new)) as (Hviews & _ & _).
  unfold rendered. rewrite Hlay. cbn [objects nodes].
  by apply views_as_deref, views_as_shift.
Qed.

(** (C10) For every tree, the [nodes] list of the layout is the post-order
    enumeration of the tree: its entries are distinct live objects, as many
    as the tree has nodes; read in order they carry the index path and the
    data of the nodes in post-order; a pair is listed exactly when it is a
    node of the tree at its index path, and no index path is listed twice;
    whatever lies below a node comes before it, and the root comes last. *)
Theorem layout_nodes_postorder tree containerHeight k :
  let lay := compute_layout (Some tree) containerHeight k in
  let listed :=
    (fun node => (PN.indexPath node, PN.nodeData node)) <$> rendered lay in
  NoDup (nodes lay) /\
  length (rendered lay) = length (nodes lay) /\
  length (nodes lay) = size (rootDataNode tree) /\
  listed = postorder [] (rootDataNode tree) /\
  (forall p d, (p, d) ∈ listed <-> node_at tree p = Some d) /\
  NoDup (PN.indexPath <$> rendered lay) /\
  descendants_first listed /\
  (exists root, last (rendered lay) = Some root /\
     PN.indexPath root = [] /\ PN.nodeData root = rootDataNode tree).
Proof.
  intros lay listed.
  destruct (compute_layout_spec tree containerHeight k)
    as (new & order & es & md & _ & [Hlen Hord _ _ _] & Hlay).
  assert (listed = postorder [] (rootDataNode tree)) as Hlisted
    by apply rendered_listed.
  assert (length (nodes lay) = size (rootDataNode tree)) as Hnodes.
  { unfold lay. rewrite Hlay. cbn [nodes]. by rewrite Hord, length_seq. }
  split; [|split; [|split; [|split; [|split; [|split; [|split]]]]]].
  - unfold lay. rewrite Hlay. cbn [nodes]. rewrite Hord. apply NoDup_seq.
  - rewrite Hnodes, <- (postorder_length [] (rootDataNode tree)), <- Hlisted.
    unfold listed. by rewrite length_fmap.
  - exact Hnodes.
  - exact Hlisted.
  - intros p d. rewrite Hlisted, node_at_descend.
    rewrite (elem_of_postorder (rootDataNode tree) [] p d).
    split; [by intros (q & -> & Hq) | intros Hp; by exists p].
  - pose proof (postorder_NoDup [] (rootDataNode tree)) as Hnd.
    rewrite <- Hlisted in Hnd. unfold listed in Hnd.
    by rewrite <- list_fmap_compose in Hnd.
  - rewrite Hlisted. apply postorder_descendants_first.
  - assert (last listed = Some ([], rootDataNode tree)) as Hlast.
    { by rewrite Hlisted, postorder_unfold, last_snoc. }
    unfold listed in Hlast. rewrite fmap_last in Hlast.
    destruct (last (rendered lay)) as [root|]; [|done].
    injection Hlast as Hp Hd. by exists root.
Qed.







(** ** Requests in flight *)

Lemma get_node_app nodes p r n :
  get_node nodes p = Some n -> r <> [] ->
  get_node nodes (p ++ r) = get_node (subtopics_or_empty n) r.
Proof.
  intros Hp Hr. revert nodes Hp. induction p as [|i p' IH]; intros nodes Hp; [done|].
  cbn in Hp |- *. destruct (nth_Z nodes i) as [node|]; [|done].
  destruct p' as [|i' p''].
  - injection Hp as ->. cbn. by destruct r.
  - cbn [app]. by apply IH.
Qed.

Lemma get_node_below_leaf nodes p r n :
  get_node nodes p = Some n -> is_leaf n = true -> r <> [] ->
  get_node nodes (p ++ r) = None.
Proof.
  intros Hp Hleaf%bool_decide_eq_true Hr.
  rewrite (get_node_app _ _ _ _ Hp Hr), Hleaf.
  destruct r as [|i r]; [done|]. cbn. unfold nth_Z. by case_bool_decide.
Qed.

(** Two different leaves sit on paths that part ways. *)
Lemma leaves_diverge nodes p q n m :
  get_node nodes p = Some n -> is_leaf n = true ->
  get_node nodes q = Some m -> is_leaf m = true ->
  p <> q -> diverge p q.
Proof.
  intros Hp Hn Hq Hm Hne. split; intros [r ->].
  - destruct r as [|i r]; [by rewrite app_nil_r in Hne|].
    by rewrite (get_node_below_leaf _ _ (i :: r) _ Hp Hn) in Hq.
  - destruct r as [|i r]; [by rewrite app_nil_r in Hne|].
    by rewrite (get_node_below_leaf _ _ (i :: r) _ Hq Hm) in Hp.
Qed.

(** An update at the root path or at a leaf leaves every other leaf alone. *)
Lemma update_keeps_other_leaf nodes p q u n :
  get_node nodes q = Some n -> is_leaf n = true ->
  p = [] \/ (exists m, get_node nodes p = Some m /\ is_leaf m = true) ->
  p <> q ->
  get_node (updateNodeState nodes p u) q = Some n.
Proof.
  intros Hq Hn [->|(m & Hp & Hm)] Hne; [done|].
  rewrite updateNodeState_frame; [done|]. by eapply leaves_diverge.
Qed.

Lemma requests_for_snoc q tree e reqs p t :
  requests_for q (mkAppState tree e (reqs ++ [(p, t)]))
  = (requests_for q (mkAppState tree e reqs) + if bool_decide (p = q) then 1 else 0)%nat.
Proof.
  unfold requests_for. cbn [inFlight]. rewrite filter_app, length_app. f_equal.
  rewrite filter_cons, filter_nil. cbn [fst].
  case_decide; by case_bool_decide.
Qed.

Lemma requests_for_delete q tree e reqs j p t :
  reqs !! j = Some (p, t) ->
  requests_for q (mkAppState tree e reqs)
  = (requests_for q (mkAppState tree e (delete j reqs))
     + if bool_decide (p = q) then 1 else 0)%nat.
Proof.
  intros Hj. unfold requests_for. cbn [inFlight].
  rewrite <- (take_drop_middle _ _ _ Hj) at 1. rewrite delete_take_drop.
  rewrite !filter_app, filter_cons, !length_app. cbn [fst].
  case_decide; case_bool_decide; try done; cbn [length]; lia.
Qed.

Lemma canExpand_is_leaf node : canExpand node = is_leaf (PN.nodeData node).
Proof.
  unfold canExpand, is_leaf, subtopics_or_empty.
  destruct (subtopics (PN.nodeData node)) as [[|c subs]|]; done.
Qed.

Lemma click_effect node st :
  foldl dispatch st (handleNodeClick node) =
  if is_leaf (PN.nodeData node) && negb (is_loading (PN.nodeData node))
  then handleExpand_request (PN.indexPath node) (title (PN.nodeData node)) st
  else st.
Proof.
  unfold handleNodeClick. rewrite canExpand_is_leaf.
  by destruct (is_leaf (PN.nodeData node) && negb (is_loading (PN.nodeData node))).
Qed.

(** A rendered node carries the data of the tree node at its index path. *)
Lemma rendered_node_at tree containerHeight k i node :
  rendered (compute_layout (Some tree) containerHeight k) !! i = Some node ->
  node_at tree (PN.indexPath node) = Some (PN.nodeData node).
Proof.
  intros Hi.
  assert ((PN.indexPath node, PN.nodeData node) ∈ postorder [] (rootDataNode tree)) as Hin.
  { rewrite <- (rendered_listed tree containerHeight k).
    apply list_elem_of_fmap. exists node. split; [done|].
    by eapply list_elem_of_lookup_2. }
  apply elem_of_postorder in Hin as (q & -> & Hq). by rewrite node_at_descend.
Qed.

Lemma in_flight_ok_request st tree p d :
  in_flight_ok st -> treeData st = Some tree ->
  node_at tree p = Some d -> is_leaf d = true -> is_loading d = false ->
  in_flight_ok (handleExpand_request p (title d) st).
Proof.
  intros (tree' & Htree' & Hinv) Htree Hd Hleaf Hload.
  rewrite Htree in Htree'. injection Htree' as <-.
  unfold handleExpand_request. rewrite Htree. cbn [fmap option_fmap option_map].
  exists (applyAt tree p markLoading). split; [done|].
  intros q Hq. destruct (Hinv q Hq) as [Hone Hnode].
  destruct st as [td e reqs]. cbn [inFlight treeData error] in *.
  rewrite (requests_for_snoc q _ None reqs p (title d)).
  assert (forall t1 e1 t2 e2, requests_for q (mkAppState t1 e1 reqs)
                              = requests_for q (mkAppState t2 e2 reqs)) as Hsame by done.
  rewrite (Hsame _ None td e).
  case_bool_decide as Hpq.
  - subst q. rewrite node_at_get_node in Hd by done.
    assert (requests_for p (mkAppState td e reqs) = 0%nat) as ->.
    { destruct (requests_for p (mkAppState td e reqs)) eqn:E; [done|].
      destruct Hnode as (m & Hm & _ & Hl); [lia|]. congruence. }
    split; [cbn; lia|]. intros _. exists (markLoading d). cbn [applyAt root_subtopics].
    by rewrite updateNodeState_target, Hd.
  - rewrite Nat.add_0_r. split; [done|]. intros Hpos.
    destruct (Hnode Hpos) as (n & Hn & Hnl & Hnload). exists n.
    split; [|done]. cbn [applyAt root_subtopics].
    apply update_keeps_other_leaf; try done.
    destruct p as [|i p']; [by left|]. right. exists d. by rewrite <- node_at_get_node.
Qed.

Lemma in_flight_ok_settle st j p t outcome :
  in_flight_ok st -> inFlight st !! j = Some (p, t) ->
  in_flight_ok
    (handleExpand_settle p outcome
       (mkAppState (treeData st) (error st) (delete j (inFlight st)))).
Proof.
  intros (tree & Htree & Hinv) Hj.
  destruct st as [td e reqs]. cbn [inFlight treeData error] in *. subst td.
  set (u := match outcome with
            | Resolved expandedData => replaceChildrenClearLoading expandedData
            | Failed _ => clearLoadingOnly
            end).
  exists (applyAt tree p u). split; [by destruct outcome|].
  intros q Hq. destruct (Hinv q Hq) as [Hone Hnode].
  rewrite (requests_for_delete q _ _ _ _ _ _ Hj) in Hone, Hnode.
  assert (requests_for q (handleExpand_settle p outcome
                            (mkAppState (Some tree) e (delete j reqs)))
          = requests_for q (mkAppState (Some tree) e (delete j reqs))) as ->
    by (by destruct outcome).
  split; [lia|]. intros Hpos.
  destruct Hnode as (n & Hn & Hnl & Hnload); [lia|]. exists n. split; [|done].
  cbn [applyAt root_subtopics]. apply update_keeps_other_leaf; try done.
  - destruct p as [|i p']; [by left|]. right.
    destruct (Hinv (i :: p') ltac:(done)) as [_ Hp].
    rewrite (requests_for_delete (i :: p') _ _ _ _ _ _ Hj) in Hp.
    rewrite bool_decide_true in Hp by done.
    destruct Hp as (m & Hm & Hml & _); [lia|]. by exists m.
  - intros ->. rewrite bool_decide_true in Hone by done. lia.
Qed.

Lemma in_flight_ok_step containerHeight k st ev :
  in_flight_ok st -> in_flight_ok (step containerHeight k st ev).
Proof.
  intros Hok. destruct ev as [i | j outcome]; cbn [step].
  - destruct Hok as (tree & Htree & Hinv). rewrite Htree.
    destruct (rendered (compute_layout (Some tree) containerHeight k) !! i)
      as [node|] eqn:Hi; [|by exists tree].
    rewrite click_effect.
    destruct (is_leaf (PN.nodeData node)) eqn:Hleaf; [|by exists tree].
    destruct (is_loading (PN.nodeData node)) eqn:Hload; [by exists tree|].
    cbn [andb negb]. apply in_flight_ok_request with (tree := tree); try done.
    + by exists tree.
    + by eapply rendered_node_at.
  - destruct (inFlight st !! j) as [[p t]|] eqn:Hj; [|done].
    by eapply in_flight_ok_settle.
Qed.




(** ** A worked layout *)

(** The tree [X] with the two childless subtopics [A] and [B], in a
    container of height 600 at zoom 1: three nodes in post-order, two
    edges, and the root halfway between [A] and [B]. *)
Example layout_of_treeX :
  let lay := compute_layout (Some treeX) 600 1 in
  title ∘ PN.nodeData <$> rendered lay = ["A"; "B"; "X"] /\
  PN.path <$> rendered lay = ["X > A"; "X > B"; "X"] /\
  edges lay = [(0, 1); (0, 2)]%nat /\
  Forall2 Qeq (PN.y <$> rendered lay) [265; 335; 300]%Q /\
  Forall2 Qeq (PN.x <$> rendered lay) [270; 270; 50]%Q.
Proof.
  cbn zeta. repeat split; try reflexivity.
  all: vm_compute; repeat constructor.
Qed.

(** * Further properties of the code *)

(** ** The tree store: addresses, independence, node counts *)

Lemma in_bounds_iff_get_node nodes q :
  q <> [] -> in_bounds nodes q <-> is_Some (get_node nodes q).
Proof.
  intros Hq. split; [by apply in_bounds_get_node|].
  intros [n Hn]. by eapply get_node_in_bounds.
Qed.

Lemma not_below_cases (p q : list Z) :
  ~ strict_prefix p q ->
  diverge p q \/ exists r, p = q ++ r.
Proof.
  intros Hnot. destruct (decide (q `prefix_of` p)) as [[r ->]|Hqp]; [right; by exists r|].
  left. split; [|done]. intros [r ->]. destruct r as [|i r].
  - apply Hqp. rewrite app_nil_r. done.
  - apply Hnot. by exists (i :: r).
Qed.

(** (X1) An update at any index path, in bounds or not, neither creates
    nor removes an address that is not below that path: for every index
    path [q] of which [p] is not a strict prefix, a node is found at [q]
    after the update exactly when one was found before. *)
Theorem applyAt_keeps_addresses tree p updater q :
  ~ strict_prefix p q ->
  is_Some (node_at (applyAt tree p updater) q) <-> is_Some (node_at tree q).
Proof.
  intros Hnot. destruct q as [|j q']; [done|].
  rewrite !node_at_get_node by done. cbn [applyAt root_subtopics].
  destruct (not_below_cases _ _ Hnot) as [Hdiv | [r ->]].
  - by rewrite updateNodeState_frame.
  - destruct r as [|i r].
    + rewrite app_nil_r, updateNodeState_target. apply fmap_is_Some.
    + rewrite updateNodeState_ancestor by done. apply fmap_is_Some.
Qed.

Lemma applyAt_keeps_addresses_witness :
  is_Some (node_at (applyAt treeX [0] (replaceChildrenClearLoading [leafB])) [1])
  <-> is_Some (node_at treeX [1]).
Proof.
  apply (applyAt_keeps_addresses treeX [0] (replaceChildrenClearLoading [leafB]) [1]).
  intros (r & _ & Hr). discriminate Hr.
Defined.

Lemma updateNodeState_commute nodes p q u v :
  diverge p q ->
  updateNodeState (updateNodeState nodes p u) q v
  = updateNodeState (updateNodeState nodes q v) p u.
Proof.
  revert nodes q. induction p as [|i rest IH]; intros nodes q Hdiv.
  { by destruct (diverge_nonempty _ _ Hdiv). }
  destruct q as [|j qrest]; [by destruct (diverge_nonempty _ _ Hdiv)|].
  apply list_eq. intros k. rewrite <- !nth_Z_of_nat, !updateNodeState_nth.
  generalize (Z.of_nat k). intros z.
  destruct (nth_Z nodes z) as [node|]; [|by repeat case_bool_decide].
  destruct (decide (z = i)) as [Hi|Hi], (decide (z = j)) as [Hj|Hj];
    rewrite ?bool_decide_true, ?bool_decide_false by done; try done.
  subst z j. cbn. f_equal. destruct Hdiv as [Hpq Hqp].
  destruct rest as [|i' rest']; [destruct Hpq; apply prefix_cons, prefix_nil|].
  destruct qrest as [|j' q']; [destruct Hqp; apply prefix_cons, prefix_nil|].
  cbn [rebuild]. rewrite !subtopics_or_empty_with. unfold with_subtopics.
  cbn [title description _isLoading].
  f_equal. f_equal. apply IH. split; intros H; [apply Hpq | apply Hqp]; by apply prefix_cons.
Qed.

(** (X2) Updates at index paths that part ways are independent: applied
    in either order, with any updaters, they give the same tree. *)
Theorem applyAt_commute tree p q u v :
  diverge p q ->
  applyAt (applyAt tree p u) q v = applyAt (applyAt tree q v) p u.
Proof.
  intros Hdiv. unfold applyAt. cbn. by rewrite updateNodeState_commute.
Qed.

Lemma applyAt_commute_witness :
  applyAt (applyAt treeX [0] markLoading) [1] (replaceChildrenClearLoading [leafA])
  = applyAt (applyAt treeX [1] (replaceChildrenClearLoading [leafA])) [0] markLoading.
Proof.
  apply applyAt_commute. split; intros [r Hr]; discriminate Hr.
Defined.

Lemma updateNodeState_insert nodes i rest u node :
  nth_Z nodes i = Some node ->
  updateNodeState nodes (i :: rest) u = <[Z.to_nat i := rebuild rest u node]> nodes.
Proof.
  intros Hi. pose proof (nth_Z_bounds _ _ _ Hi) as Hb.
  apply nth_Z_Some in Hi as [Hi0 Hi].
  cbn [updateNodeState]. rewrite bool_decide_false by lia.
  apply list_eq. intros k. rewrite list_lookup_imap.
  destruct (decide (k = Z.to_nat i)) as [->|Hk].
  - rewrite list_lookup_insert_eq by (apply lookup_lt_Some in Hi; done).
    rewrite Hi. cbn. by rewrite bool_decide_true by lia.
  - rewrite list_lookup_insert_ne by done.
    destruct (nodes !! k); [cbn|done]. by rewrite bool_decide_false by lia.
Qed.

Lemma sizes_insert l (k : nat) old new :
  l !! k = Some old ->
  (sizes (<[k := new]> l) + size old = sizes l + size new)%nat.
Proof.
  revert k. induction l as [|c l IH]; intros [|k] Hk; try done.
  - injection Hk as ->. change (<[0%nat := new]> (old :: l)) with (new :: l).
    cbn [sizes]. lia.
  - change (<[S k := new]> (c :: l)) with (c :: <[k := new]> l).
    cbn [sizes]. specialize (IH k Hk). lia.
Qed.

Lemma sizes_update nodes p u n :
  get_node nodes p = Some n ->
  (sizes (updateNodeState nodes p u) + size n = sizes nodes + size (u n))%nat.
Proof.
  revert nodes. induction p as [|i rest IH]; intros nodes Hn; [done|].
  cbn [get_node] in Hn. destruct (nth_Z nodes i) as [node|] eqn:Hi; [|done].
  rewrite (updateNodeState_insert _ _ _ _ _ Hi).
  apply nth_Z_Some in Hi as [_ Hi].
  pose proof (sizes_insert _ _ _ (rebuild rest u node) Hi) as Hins.
  destruct rest as [|i' rest'].
  - injection Hn as ->. exact Hins.
  - specialize (IH _ Hn). cbn [rebuild] in Hins |- *.
    rewrite (size_unfold (with_subtopics _ _)), subtopics_or_empty_with in Hins.
    rewrite (size_unfold node) in Hins. lia.
Qed.

Lemma layout_node_count tree containerHeight k :
  length (nodes (compute_layout (Some tree) containerHeight k))
  = size (rootDataNode tree).
Proof.
  destruct (compute_layout_spec tree containerHeight k)
    as (new & order & es & md & _ & [_ Hord _ _ _] & ->).
  cbn [nodes]. by rewrite Hord, length_seq.
Qed.

(** (X3) The number of nodes the layout draws follows the update: when
    the node at a non-empty in-bounds index path is replaced by the
    updater's image, the layout gains the nodes of the image and loses
    those of the old subtree; a successful expansion of a childless node
    adds exactly the nodes of the returned children, and the two flag
    updaters add none. *)
Theorem layout_count_after_update tree p updater n containerHeight k :
  p <> [] -> node_at tree p = Some n ->
  let count t := length (nodes (compute_layout (Some t) containerHeight k)) in
  (count (applyAt tree p updater) + size n = count tree + size (updater n))%nat /\
  (forall expandedData, is_leaf n = true ->
     count (applyAt tree p (replaceChildrenClearLoading expandedData))
     = (count tree + sizes expandedData)%nat) /\
  count (applyAt tree p markLoading) = count tree /\
  count (applyAt tree p clearLoadingOnly) = count tree.
Proof.
  intros Hp Hn count. rewrite node_at_get_node in Hn by done.
  assert (forall u, (count (applyAt tree p u) + size n = count tree + size (u n))%nat)
    as Hgen.
  { intros u. unfold count. rewrite !layout_node_count.
    rewrite (size_unfold (rootDataNode tree)),
      (size_unfold (rootDataNode (applyAt tree p u))).
    cbn [rootDataNode applyAt subtopics_or_empty subtopics root_subtopics default
         from_option id].
    pose proof (sizes_update _ _ u _ Hn). lia. }
  split; [apply Hgen|]. split; [|split].
  - intros expandedData Hleaf. specialize (Hgen (replaceChildrenClearLoading expandedData)).
    apply bool_decide_eq_true in Hleaf.
    assert (size n = 1%nat) as Hone by (by rewrite size_unfold, Hleaf).
    assert (size (replaceChildrenClearLoading expandedData n) = S (sizes expandedData))
      as Hnew by (by rewrite size_unfold).
    lia.
  - specialize (Hgen markLoading).
    assert (size (markLoading n) = size n) as Hsame by (by rewrite !size_unfold).
    lia.
  - specialize (Hgen clearLoadingOnly).
    assert (size (clearLoadingOnly n) = size n) as Hsame by (by rewrite !size_unfold).
    lia.
Qed.

Lemma layout_count_after_update_witness :
  length (nodes (compute_layout
                   (Some (applyAt treeX [0] (replaceChildrenClearLoading [leafA; leafB])))
                   600 1))
  = (length (nodes (compute_layout (Some treeX) 600 1)) + 2)%nat.
Proof.
  destruct (layout_count_after_update treeX [0] markLoading leafA 600 1
              ltac:(discriminate) eq_refl) as (_ & Hexp & _).
  exact (Hexp [leafA; leafB] eq_refl).
Defined.

(** ** The expansion life cycle, continued *)



(** ** What a session never does *)

Lemma path_cases (p q : list Z) :
  diverge p q \/ (exists r, p = q ++ r) \/ (exists r, r <> [] /\ q = p ++ r).
Proof.
  destruct (decide (q `prefix_of` p)) as [[r ->]|Hqp]; [right; left; by exists r|].
  destruct (decide (p `prefix_of` q)) as [[r ->]|Hpq]; [|by left].
  right. right. exists r. split; [|done]. intros ->. apply Hqp. by rewrite app_nil_r.
Qed.

(** An update whose updater keeps title and description, and which keeps
    the subtopics of the target unless the target is a leaf, loses no node
    and renames none. *)
Lemma updateNodeState_keeps_labels nodes p u :
  (forall n, title (u n) = title n /\ description (u n) = description n) ->
  (forall n, get_node nodes p = Some n ->
     is_leaf n = true \/ subtopics_or_empty (u n) = subtopics_or_empty n) ->
  forall q m, get_node nodes q = Some m ->
    exists m', get_node (updateNodeState nodes p u) q = Some m' /\
      title m' = title m /\ description m' = description m.
Proof.
  intros Hlabels Hsubs q m Hm.
  assert (q <> []) as Hq by (by intros ->).
  destruct (path_cases p q) as [Hdiv | [[r ->] | (r & Hr & ->)]].
  - exists m. by rewrite updateNodeState_frame.
  - destruct r as [|i r].
    + rewrite app_nil_r in *. exists (u m).
      rewrite updateNodeState_target, Hm. split; [done | apply Hlabels].
    + rewrite updateNodeState_ancestor, Hm by done. by eexists.
  - destruct p as [|i p']; [by exists m|].
    pose proof (get_node_in_bounds _ _ _ Hm) as Hin.
    destruct (in_bounds_app _ (i :: p') r ltac:(done) Hin) as (n & Hn & _).
    rewrite (get_node_app _ _ _ _ Hn Hr) in Hm.
    assert (get_node (updateNodeState nodes (i :: p') u) (i :: p') = Some (u n)) as Hun
      by (by rewrite updateNodeState_target, Hn).
    rewrite (get_node_app _ _ _ _ Hun Hr).
    destruct (Hsubs n Hn) as [Hleaf%bool_decide_eq_true | Heq].
    + rewrite Hleaf in Hm. destruct r as [|j r]; [done|]. cbn in Hm.
      unfold nth_Z in Hm. by case_bool_decide.
    + rewrite Heq. by exists m.
Qed.

Lemma applyAt_keeps_labels tree p u :
  (forall n, title (u n) = title n /\ description (u n) = description n) ->
  (forall n, get_node (root_subtopics tree) p = Some n ->
     is_leaf n = true \/ subtopics_or_empty (u n) = subtopics_or_empty n) ->
  keeps_labels tree (applyAt tree p u).
Proof.
  intros Hlabels Hsubs [|j q] m Hm.
  - injection Hm as <-. by eexists.
  - rewrite node_at_get_node in Hm |- * by done.
    by apply updateNodeState_keeps_labels.
Qed.

Lemma keeps_labels_trans t1 t2 t3 :
  keeps_labels t1 t2 -> keeps_labels t2 t3 -> keeps_labels t1 t3.
Proof.
  intros H12 H23 q n Hn.
  destruct (H12 q n Hn) as (n2 & Hn2 & Ht2 & Hd2).
  destruct (H23 q n2 Hn2) as (n3 & Hn3 & Ht3 & Hd3).
  exists n3. split; [done|]. split; congruence.
Qed.

Lemma in_flight_counted st j p t :
  inFlight st !! j = Some (p, t) -> (0 < requests_for p st)%nat.
Proof.
  intros Hj. destruct st as [td e reqs]. cbn [inFlight] in Hj.
  rewrite (requests_for_delete p _ _ _ _ _ _ Hj), bool_decide_true by done. lia.
Qed.

Lemma step_keeps_labels containerHeight k st ev tree :
  in_flight_ok st -> treeData st = Some tree ->
  exists tree', treeData (step containerHeight k st ev) = Some tree' /\
    keeps_labels tree tree'.
Proof.
  intros Hok Htree.
  assert (keeps_labels tree tree) as Hrefl by (intros q n Hn; by exists n).
  destruct ev as [i | j outcome]; cbn [step].
  - rewrite Htree.
    destruct (rendered (compute_layout (Some tree) containerHeight k) !! i)
      as [node|]; [|by exists tree].
    rewrite click_effect.
    destruct (is_leaf (PN.nodeData node) && negb (is_loading (PN.nodeData node)));
      [|by exists tree].
    unfold handleExpand_request. rewrite Htree. cbn.
    eexists. split; [done|]. apply applyAt_keeps_labels; [done|]. intros n _. by right.
  - destruct (inFlight st !! j) as [[p t]|] eqn:Hj; [|by exists tree].
    pose proof (in_flight_counted _ _ _ _ Hj) as Hpos.
    destruct outcome as [expandedData | message]; cbn; rewrite Htree; cbn.
    + eexists. split; [done|]. apply applyAt_keeps_labels; [done|].
      intros n Hn. left.
      assert (p <> []) as Hp by (intros ->; done).
      destruct Hok as (tree0 & Htree0 & Hinv). rewrite Htree in Htree0.
      injection Htree0 as <-.
      destruct (Hinv p Hp) as [_ Hnode].
      destruct (Hnode Hpos) as (m & Hm & Hleaf & _). congruence.
    + eexists. split; [done|]. apply applyAt_keeps_labels; [done|]. intros n _. by right.
Qed.

Lemma run_keeps_labels containerHeight k evs : forall st tree,
  in_flight_ok st -> treeData st = Some tree ->
  exists tree', treeData (run containerHeight k evs st) = Some tree' /\
    keeps_labels tree tree'.
Proof.
  induction evs as [|ev evs IH]; intros st tree Hok Htree.
  { exists tree. split; [done|]. intros q n Hn. by exists n. }
  destruct (step_keeps_labels containerHeight k st ev tree Hok Htree)
    as (tree1 & Htree1 & H1).
  destruct (IH _ tree1 (in_flight_ok_step containerHeight k st ev Hok) Htree1)
    as (tree2 & Htree2 & H2).
  exists tree2. split; [exact Htree2 | by eapply keeps_labels_trans].
Qed.

Lemma generated_in_flight_ok tree : in_flight_ok (generated tree).
Proof.
  exists tree. split; [done|]. intros q _. cbn. split; [lia | intros ?; lia].
Qed.

(** (X5) A session of clicks and settling requests loses no node and
    renames none: every node of the generated tree, the root included, is
    still found at the same index path, with the same title and
    description, in the tree the session ends with, whatever the provider
    answered. *)
Theorem session_keeps_nodes tree containerHeight k evs :
  exists tree',
    treeData (run containerHeight k evs (generated tree)) = Some tree' /\
    forall q n, node_at tree q = Some n ->
      exists n', node_at tree' q = Some n' /\
        title n' = title n /\ description n' = description n.
Proof.
  apply run_keeps_labels; [apply generated_in_flight_ok | done].
Qed.



(** ** Pan and zoom *)

Lemma handleWheel_k_range deltaY mouseX mouseY vt :
  (1 # 10 <= vt_k (handleWheel deltaY mouseX mouseY vt) <= 5)%Q.
Proof.
  cbn. split.
  - apply Q.le_max_l.
  - apply Q.max_lub; [done | apply Q.le_min_l].
Qed.

Lemma view_step_k_range s ev :
  (1 # 10 <= vt_k (viewTransform s) <= 5)%Q ->
  (1 # 10 <= vt_k (viewTransform (view_step s ev)) <= 5)%Q.
Proof.
  intros Hk. destruct ev; cbn [view_step]; try done.
  - unfold longPressElapsed. by destruct (list_find _ _) as [[? [? ?]]|].
  - unfold handleMouseMove. by destruct (isPanning s).
  - apply handleWheel_k_range.
Qed.

(** (X7) Whatever the user does with the mouse and the wheel, and however
    often the view is reset, the zoom factor stays between [0.1] and [5];
    in particular it is positive, so the layout never divides by zero. *)
Theorem zoom_stays_in_range evs :
  let k := vt_k (viewTransform (view_run evs initialPanZoom)) in
  (1 # 10 <= k <= 5)%Q /\ (0 < k)%Q.
Proof.
  cbn zeta.
  enough (forall s, (1 # 10 <= vt_k (viewTransform s) <= 5)%Q ->
            (1 # 10 <= vt_k (viewTransform (view_run evs s)) <= 5)%Q) as Hrun.
  { destruct (Hrun initialPanZoom) as [Hlo Hhi]; [done|]. split; [done|].
    eapply Qlt_le_trans; [|exact Hlo]. done. }
  induction evs as [|ev evs IH]; intros s Hs; [done|].
  cbn. apply IH. by apply view_step_k_range.
Qed.




Lemma view_run_app evs1 evs2 s :
  view_run (evs1 ++ evs2) s = view_run evs2 (view_run evs1 s).
Proof. apply foldl_app. Qed.




Lemma idle_stays_idle evs : forall s,
  isPanning s = false -> pendingTimers s = [] ->
  Forall (fun ev => is_passive ev = true) evs ->
  isPanning (view_run evs s) = false /\
  viewTransform (view_run evs s) = viewTransform s.
Proof.
  induction evs as [|ev evs IH]; intros s Hpan Hnone Hevs; [done|].
  apply Forall_cons in Hevs as [Hev Hevs]. cbn [view_run foldl].
  fold (view_run evs (view_step s ev)).
  assert (isPanning (view_step s ev) = false /\ pendingTimers (view_step s ev) = [] /\
          viewTransform (view_step s ev) = viewTransform s) as (H1 & H2 & H3).
  { destruct ev; try done; cbn [view_step].
    - unfold longPressElapsed. by rewrite Hnone.
    - unfold handleMouseMove. by rewrite Hpan.
    - unfold handleMouseUp. cbn. rewrite Hnone. by destruct (longPressTimeout s). }
  destruct (IH _ H1 H2 Hevs) as [H4 H5]. split; [done | congruence].
Qed.

(** (X10) A press released before the long-press timer fires is no drag:
    from a state with no pan going on and no timer pending, after the
    press and the release the timer is cleared, and no later cursor move,
    release or expired timer changes the view or starts a pan. *)
Theorem short_press_never_pans s clientX clientY evs :
  isPanning s = false -> pendingTimers s = [] ->
  Forall (fun ev => is_passive ev = true) evs ->
  let s' := view_run (MouseDown clientX clientY :: MouseUp :: evs) s in
  isPanning s' = false /\ viewTransform s' = viewTransform s.
Proof.
  intros Hpan Hnone Hevs. cbn zeta.
  change (MouseDown clientX clientY :: MouseUp :: evs)
    with ([MouseDown clientX clientY; MouseUp] ++ evs).
  rewrite view_run_app.
  assert (view_run [MouseDown clientX clientY; MouseUp] s
          = mkPanZoom false None [] (S (nextTimerId s)) (panStart s) (viewTransform s))
    as ->.
  { cbn. unfold handleMouseUp, handleMouseDown, clearTimeout. cbn. rewrite Hnone. cbn.
    by rewrite decide_False by auto. }
  match goal with |- context [view_run evs ?s1] =>
    exact (idle_stays_idle evs s1 eq_refl eq_refl Hevs)
  end.
Qed.

Lemma short_press_never_pans_witness :
  viewTransform
    (view_run [MouseDown 10 10; MouseUp; LongPressElapsed 1; MouseMove 50 50]
       initialPanZoom)
  = initialViewTransform.
Proof.
  apply (short_press_never_pans initialPanZoom 10 10
           [LongPressElapsed 1; MouseMove 50 50] eq_refl eq_refl).
  repeat constructor.
Defined.

(** ** How the layout wires its objects *)

Lemma numbered_cons {A} index (c : A) l :
  numbered index (c :: l) = (index, c) :: numbered (S index) l.
Proof. reflexivity. Qed.

Lemma edges_of_app objs o1 o2 :
  edges_of objs (o1 ++ o2) = edges_of objs o1 ++ edges_of objs o2.
Proof. apply omap_app. Qed.

Lemma depth_x_succ depth : (depth_x (S depth) == depth_x depth + LEVEL_SPACING)%Q.
Proof.
  unfold depth_x. rewrite Nat2Z.inj_succ. unfold Z.succ. rewrite inject_Z_plus. ring.
Qed.

Lemma layout_children_wired l :
  Forall wiring_spec l ->
  forall depth self own_path ip index st,
    exists new order newedges yc md kids,
      layout_children depth self own_path ip l index st =
        (kids,
         mkLayoutState (store st ++ new) (allNodes st ++ order)
           (allEdges st ++ newedges) yc md) /\
      Wireds l index depth self own_path ip (length (store st)) new order newedges kids.
Proof.
  induction 1 as [|c l Hc _ IH]; intros depth self own_path ip index st.
  - exists [], [], [], (yCounter st), (maxDepth st), []. split.
    + destruct st; cbn. by rewrite !app_nil_r.
    + constructor; cbn; [constructor | constructor | done |].
      intros objs _. repeat split; constructor.
  - destruct (Hc (S depth) (Some self) own_path (ip ++ [Z.of_nat index]) st)
      as (new1 & order1 & es1 & yc1 & md1 & Heq1 & [Hroot1 Hdepth1 Hel1 Hlinks1]).
    rewrite layout_children_cons, Heq1.
    match goal with |- context [layout_children _ _ _ _ l (S index) ?s] =>
      destruct (IH depth self own_path ip (S index) s)
        as (new2 & order2 & es2 & yc2 & md2 & kids2 & Heq2
            & [Hkids2 Hdepth2 Hel2 Hlinks2])
    end.
    rewrite Heq2. cbn [store allNodes allEdges] in *.
    exists (new1 ++ new2), (order1 ++ order2), (es1 ++ es2), yc2, md2,
      (length (store st) :: kids2).
    rewrite length_app in *. split; [by rewrite !app_assoc|].
    constructor.
    + rewrite numbered_cons. constructor.
      * split; [lia|]. destruct Hroot1 as (own & Hown & Hip & Hpar & Hpath & Hdata & Hx).
        exists own. rewrite Nat.sub_diag. split; [by apply lookup_app_l_Some | done].
      * eapply Forall2_impl; [exact Hkids2|].
        intros k ic [Hk (kid & Hkid & Hrest)]. split; [lia|]. exists kid.
        split; [|done]. rewrite lookup_app_r by lia. rewrite <- Hkid. f_equal. lia.
    + apply Forall_app. split; [|done].
      eapply Forall_impl; [exact Hdepth1|]. intros node (d & Hd & Hlen).
      exists d. split; [done|]. rewrite length_app in Hlen. cbn in Hlen. lia.
    + rewrite !length_app. cbn in Hel1. lia.
    + intros objs [H1 H2]%holds_at_app.
      destruct (Hlinks1 objs H1) as (He1 & Hl1 & Hf1).
      destruct (Hlinks2 objs H2) as (He2 & Hl2 & Hf2).
      split; [|split].
      * by rewrite edges_of_app, He1, He2.
      * apply Forall_app. split.
        -- eapply Forall_impl; [exact Hl1|]. intros x [-> | Hx]; [left; left | by right].
        -- eapply Forall_impl; [exact Hl2|]. intros x [Hx | Hx]; [left; by right | by right].
      * by apply Forall_app.
Qed.

Lemma layout_wired_leaf node depth parent parentPath ip st :
  is_leaf node = true ->
  exists new order newedges yc md,
    layout node depth parent parentPath ip st =
      (length (store st),
       mkLayoutState (store st ++ new) (allNodes st ++ order)
         (allEdges st ++ newedges) yc md) /\
    Wired node depth parent parentPath ip (length (store st)) new order newedges.
Proof.
  intros Hleaf.
  assert (subtopics_or_empty node = []) as Hsubs
    by (by apply bool_decide_eq_true in Hleaf).
  rewrite layout_leaf by done.
  eexists [_], [_], (match parent with Some p => [(p, length (store st))] | None => [] end),
    _, _.
  split.
  - unfold finish, place_leaf, allocate. cbn. rewrite alter_at_length.
    destruct parent; [done | by rewrite app_nil_r].
  - constructor.
    + eexists. split; [done|]. done.
    + constructor; [|constructor]. exists depth. split; [done | cbn; lia].
    + by destruct parent.
    + intros objs [Hr _]%holds_at_cons. split; [|split].
      * unfold edges_of. cbn. rewrite Hr. cbn. by destruct parent.
      * constructor; [by left | constructor].
      * constructor; [|constructor]. intros own Hown.
        rewrite Hr in Hown. injection Hown as <-. cbn. rewrite Hsubs. constructor.
Qed.

Lemma place_parent_store self kids st base fresh newk :
  store st = base ++ fresh :: newk -> self = length base ->
  exists final,
    place_parent self kids st =
      mkLayoutState (base ++ final :: newk) (allNodes st) (allEdges st)
        (yCounter st) (maxDepth st) /\
    PN.indexPath final = PN.indexPath fresh /\ PN.parent final = PN.parent fresh /\
    PN.path final = PN.path fresh /\ PN.nodeData final = PN.nodeData fresh /\
    PN.x final = PN.x fresh /\ PN.children final = kids.
Proof.
  intros Hstore ->. unfold place_parent. rewrite Hstore, alter_at_length.
  destruct (head kids), (last kids); rewrite ?alter_at_length; by eexists.
Qed.

Lemma layout_wired_parent node depth parent parentPath ip st :
  is_leaf node = false ->
  Forall wiring_spec (subtopics_or_empty node) ->
  exists new order newedges yc md,
    layout node depth parent parentPath ip st =
      (length (store st),
       mkLayoutState (store st ++ new) (allNodes st ++ order)
         (allEdges st ++ newedges) yc md) /\
    Wired node depth parent parentPath ip (length (store st)) new order newedges.
Proof.
  intros Hleaf IH.
  rewrite layout_parent by done. cbn zeta.
  set (fresh := fresh_node node depth parent parentPath ip).
  destruct (layout_children_wired _ IH depth (length (store st)) (PN.path fresh)
              ip 0%nat (allocate fresh depth st))
    as (newk & orderk & esk & yck & mdk & kids & Heq & [Hkids Hdepth Hel Hlinks]).
  rewrite Heq. cbn [allocate store allNodes allEdges] in *.
  rewrite length_app in *. cbn [length] in *.
  replace (length (store st) + 1)%nat with (S (length (store st))) in * by lia.
  match goal with |- context [place_parent _ kids ?s] =>
    destruct (place_parent_store (length (store st)) kids s (store st) fresh newk)
      as (final & -> & Hfip & Hfpar & Hfpath & Hfdata & Hfx & Hfkids);
      [by cbn; rewrite <- app_assoc | done |]
  end.
  cbn [fresh fresh_node PN.indexPath PN.parent PN.nodeData PN.x] in Hfip, Hfpar, Hfdata, Hfx.
  set (edge := match parent with Some p => [(p, length (store st))] | None => [] end).
  exists (final :: newk), (orderk ++ [length (store st)]), (esk ++ edge), yck, mdk.
  split.
  - unfold finish, edge. cbn [store allNodes allEdges yCounter maxDepth].
    rewrite <- !app_assoc. clear. destruct parent; by rewrite <- ?app_assoc, ?app_nil_r.
  - constructor.
    + exists final. by rewrite Hfpath.
    + constructor; [|done]. exists depth. rewrite Hfip. split; [done | lia].
    + rewrite length_app. cbn [length]. unfold edge. destruct parent; cbn; lia.
    + intros objs [Hown Hobjs]%holds_at_cons.
      destruct (Hlinks objs Hobjs) as (He & Hl & Hf).
      assert (Forall2 (fun c ic =>
                exists child, objs !! c = Some child /\
                  PN.parent child = Some (length (store st)) /\
                  PN.indexPath child = ip ++ [Z.of_nat ic.1] /\
                  PN.path child = child_path (PN.path fresh) (title ic.2) /\
                  PN.nodeData child = ic.2 /\ PN.x child = depth_x (S depth))
                kids (numbered 0 (subtopics_or_empty node))) as Hkids'.
      { eapply Forall2_impl; [exact Hkids|].
        intros k ic [Hk (kid & Hkid & ? & ? & ? & ? & ?)]. exists kid.
        split; [by eapply holds_at_lookup | done]. }
      split; [|split].
      * rewrite edges_of_app, He. f_equal. unfold edges_of. cbn. rewrite Hown. cbn.
        rewrite Hfpar. unfold edge. by destruct parent.
      * apply Forall_app. split; [|constructor; [by left | constructor]].
        eapply Forall_impl; [exact Hl|]. intros x [Hx | Hx]; [|by right]. right.
        apply list_elem_of_lookup in Hx as [i Hi].
        destruct (Forall2_lookup_l _ _ _ _ _ Hkids' Hi)
          as ([i' c] & Hic & child & Hchild & Hpar & Hip & Hpath & Hdata & Hx).
        assert (i' = i) as ->.
        { unfold numbered in Hic. apply lookup_zip_with_Some in Hic
            as (a & b & [= <- <-] & Ha & _). apply lookup_seq in Ha as [-> _]. done. }
        intros node' Hnode'. rewrite Hchild in Hnode'. injection Hnode' as <-.
        exists (length (store st)), final, i. cbn [fst snd] in *.
        rewrite Hfkids, Hfip, Hfpath, Hdata, Hx, Hfx. repeat split; try done.
        apply depth_x_succ.
      * apply Forall_app. split; [done|]. constructor; [|constructor].
        intros node' Hnode'. rewrite Hown in Hnode'. injection Hnode' as <-.
        rewrite Hfkids, Hfdata, Hfip.
        eapply Forall2_impl; [exact Hkids'|].
        intros c ic (child & Hchild & Hpar & Hip & _ & Hdata & _). by exists child.
Qed.

Lemma layout_wired node : wiring_spec node.
Proof.
  induction node as [node IH] using TreeNodeData_ind.
  intros depth parent parentPath ip st.
  destruct (is_leaf node) eqn:Hleaf.
  - by apply layout_wired_leaf.
  - by apply layout_wired_parent.
Qed.

(** *** The wiring of a whole layout *)

(** The objects of the recursive pass, with what is known of them, and the
    layout as their shifted copies. *)
Lemma compute_layout_wired tree containerHeight k :
  exists new order es,
    compute_layout (Some tree) containerHeight k =
      mkLayout (add_y (containerHeight / (2 * k) - y_of new 0%nat)%Q <$> new) order es /\
    Permutation order (seq 0 (length new)) /\
    views_as new order (postorder [] (rootDataNode tree)) /\
    Wired (rootDataNode tree) 0 None "" [] 0 new order es.
Proof.
  destruct (compute_layout_spec tree containerHeight k)
    as (new & order & es & md & Hpass & [Hlen Hord _ _ Hres] & Hlay).
  destruct (layout_wired (rootDataNode tree) 0%nat None "" [] initialLayoutState)
    as (new' & order' & es' & yc' & md' & Heq & Hwired).
  unfold layout_pass in Hpass. rewrite Hpass in Heq. cbn in Heq.
  injection Heq as <- <- <- _ _.
  exists new, order, es. split; [done|]. split; [by rewrite Hlen|].
  split; [|done]. by destruct (Hres new (holds_at_self new)).
Qed.

Lemma elem_of_deref objs order node :
  node ∈ deref objs order <-> exists r, r ∈ order /\ objs !! r = Some node.
Proof. unfold deref. apply list_elem_of_omap. Qed.

Lemma live_in_order {A} (objs : list A) order r a :
  Permutation order (seq 0 (length objs)) -> objs !! r = Some a -> r ∈ order.
Proof.
  intros Hperm Hr. rewrite Hperm. apply elem_of_seq. apply lookup_lt_Some in Hr. lia.
Qed.

(** A rendered node is the shifted copy of an object of the pass. *)
Lemma rendered_unshift offset new order node :
  node ∈ deref (add_y offset <$> new) order ->
  exists r original, r ∈ order /\ new !! r = Some original /\ node = add_y offset original.
Proof.
  intros (r & Hr & Hnode)%elem_of_deref. rewrite list_lookup_fmap in Hnode.
  destruct (new !! r) as [original|] eqn:Ho; [|done]. injection Hnode as <-.
  by exists r, original.
Qed.

(** (X11) Every node of the layout has the [x] of its depth, and its depth
    is the length of its index path: [x = 50 + 220 * indexPath.length], so
    nodes at the same depth are vertically aligned. *)
Theorem layout_x_by_depth tree containerHeight k node :
  node ∈ rendered (compute_layout (Some tree) containerHeight k) ->
  (PN.x node == 50 + 220 * inject_Z (Z.of_nat (length (PN.indexPath node))))%Q.
Proof.
  destruct (compute_layout_wired tree containerHeight k)
    as (new & order & es & -> & Hperm & _ & [_ Hdepth _ _]).
  unfold rendered. cbn [objects nodes].
  intros (r & original & _ & Ho & ->)%rendered_unshift.
  rewrite Forall_forall in Hdepth.
  destruct (Hdepth original) as (d & Hd & Hlen); [by eapply list_elem_of_lookup_2|].
  cbn in Hlen |- *. rewrite Hd. replace d with (length (PN.indexPath original)) by lia.
  unfold depth_x, LEVEL_SPACING, PADDING. ring.
Qed.

Lemma layout_x_by_depth_witness :
  Forall (fun node =>
            PN.x node == 50 + 220 * inject_Z (Z.of_nat (length (PN.indexPath node))))%Q
    (rendered (compute_layout (Some treeX) 600 1)).
Proof.
  apply Forall_forall. intros node Hnode.
  exact (layout_x_by_depth treeX 600 1 node Hnode).
Defined.

Lemma titles_along_snoc nodes q i n :
  get_node nodes (q ++ [i]) = Some n ->
  titles_along nodes (q ++ [i]) = titles_along nodes q ++ [title n].
Proof.
  revert nodes. induction q as [|j q IH]; intros nodes Hn; cbn in *.
  - destruct (nth_Z nodes i) as [node|]; [|done]. injection Hn as ->. done.
  - destruct (nth_Z nodes j) as [node|]; [|done]. cbn. f_equal.
    apply IH. by destruct q.
Qed.

Lemma label_path_snoc tree q i n :
  node_at tree (q ++ [i]) = Some n ->
  label_path tree (q ++ [i]) = child_path (label_path tree q) (title n).
Proof.
  intros Hn. rewrite node_at_get_node in Hn by (by destruct q).
  unfold label_path. rewrite (titles_along_snoc _ _ _ _ Hn).
  by rewrite app_comm_cons, foldl_app.
Qed.

(** The path string of every object of the pass spells its index path. *)
Lemma pass_paths tree new order es :
  Permutation order (seq 0 (length new)) ->
  views_as new order (postorder [] (rootDataNode tree)) ->
  Wired (rootDataNode tree) 0 None "" [] 0 new order es ->
  forall n r node, new !! r = Some node -> length (PN.indexPath node) = n ->
    PN.path node = label_path tree (PN.indexPath node).
Proof.
  intros Hperm Hviews [Hroot _ _ Hlinks].
  destruct (Hlinks new (holds_at_self new)) as (_ & Hl & _).
  rewrite Forall_forall in Hl.
  assert (forall r node, new !! r = Some node ->
            node_at tree (PN.indexPath node) = Some (PN.nodeData node)) as Hdata.
  { intros r node Hr.
    assert ((PN.indexPath node, PN.nodeData node) ∈ postorder [] (rootDataNode tree)) as Hin.
    { rewrite <- (views_as_deref _ _ _ Hviews). apply list_elem_of_fmap.
      exists node. split; [done|]. apply elem_of_deref. exists r.
      split; [by eapply live_in_order | done]. }
    apply elem_of_postorder in Hin as (q & -> & Hq). by rewrite node_at_descend. }
  induction n as [|n IH]; intros r node Hr Hlen.
  - destruct (Hl r (live_in_order _ _ _ _ Hperm Hr)) as [-> | Hlinked].
    + destruct Hroot as (own & Hown & Hip & _ & Hpath & _).
      rewrite Hr in Hown. injection Hown as <-. by rewrite Hpath, Hip.
    + destruct (Hlinked node Hr) as (p & father & i & _ & _ & _ & Hip & _).
      rewrite Hip, length_app in Hlen. cbn in Hlen. lia.
  - destruct (Hl r (live_in_order _ _ _ _ Hperm Hr)) as [-> | Hlinked].
    + destruct Hroot as (own & Hown & Hip & _).
      rewrite Hr in Hown. injection Hown as <-. by rewrite Hip in Hlen.
    + destruct (Hlinked node Hr) as (p & father & i & _ & Hfather & _ & Hip & Hpath & _).
      rewrite Hpath, (IH p father Hfather).
      * pose proof (Hdata r node Hr) as Hnode. rewrite Hip in Hnode |- *.
        by rewrite (label_path_snoc _ _ _ _ Hnode).
      * rewrite Hip, length_app in Hlen. cbn in Hlen. lia.
Qed.

Lemma layout_path_spells_titles_aux tree containerHeight k node :
  node ∈ rendered (compute_layout (Some tree) containerHeight k) ->
  PN.path node = label_path tree (PN.indexPath node) /\
  node_at tree (PN.indexPath node) = Some (PN.nodeData node).
Proof.
  intros Hnode. split.
  - destruct (compute_layout_wired tree containerHeight k)
      as (new & order & es & Hlay & Hperm & Hviews & Hwired).
    rewrite Hlay in Hnode. unfold rendered in Hnode. cbn [objects nodes] in Hnode.
    apply rendered_unshift in Hnode as (r & original & _ & Ho & ->).
    cbn. by eapply pass_paths.
  - apply list_elem_of_lookup in Hnode as [i Hi]. by eapply rendered_node_at.
Qed.

(** (X12) The [path] string of every node of the layout is made of the
    titles from the root down to the node, joined by [child_path]: the
    separator [" > "] is put after a non-empty prefix only, so an empty
    title at the top leaves no trace in the paths below it. *)
Theorem layout_path_spells_titles tree containerHeight k node :
  node ∈ rendered (compute_layout (Some tree) containerHeight k) ->
  PN.path node = label_path tree (PN.indexPath node) /\
  node_at tree (PN.indexPath node) = Some (PN.nodeData node).
Proof. apply layout_path_spells_titles_aux. Qed.

Lemma layout_path_spells_titles_witness :
  Forall (fun node => PN.path node = label_path treeX (PN.indexPath node))
    (rendered (compute_layout (Some treeX) 600 1)).
Proof.
  apply Forall_forall. intros node Hnode.
  exact (proj1 (layout_path_spells_titles treeX 600 1 node Hnode)).
Defined.

(** (X13) Selection goes by the path string, so it cannot tell apart
    siblings with the same title: when one of them is selected, the other
    is drawn as selected too. *)
Theorem same_titled_siblings_selected_together tree containerHeight k a b q i j :
  a ∈ rendered (compute_layout (Some tree) containerHeight k) ->
  b ∈ rendered (compute_layout (Some tree) containerHeight k) ->
  PN.indexPath a = q ++ [i] -> PN.indexPath b = q ++ [j] ->
  title (PN.nodeData a) = title (PN.nodeData b) ->
  isSelected (Some a) a = true /\ isSelected (Some a) b = true.
Proof.
  intros Ha Hb Hia Hib Htitle.
  destruct (layout_path_spells_titles_aux tree containerHeight k a Ha) as [Hpa Hna].
  destruct (layout_path_spells_titles_aux tree containerHeight k b Hb) as [Hpb Hnb].
  unfold isSelected. cbn. rewrite !bool_decide_eq_true. split; [done|].
  f_equal. rewrite Hpa, Hpb. rewrite Hia in Hna |- *. rewrite Hib in Hnb |- *.
  by rewrite (label_path_snoc _ _ _ _ Hna), (label_path_snoc _ _ _ _ Hnb), Htitle.
Qed.

Lemma same_titled_siblings_selected_together_witness :
  exists a b,
    rendered (compute_layout (Some treeTwins) 600 1) !! 0%nat = Some a /\
    rendered (compute_layout (Some treeTwins) 600 1) !! 1%nat = Some b /\
    description (PN.nodeData a) <> description (PN.nodeData b) /\
    isSelected (Some a) b = true.
Proof.
  eexists _, _. split; [vm_compute; reflexivity|]. split; [vm_compute; reflexivity|].
  split; [discriminate|].
  eapply (same_titled_siblings_selected_together treeTwins 600 1 _ _ [] 0 1).
  - apply list_elem_of_lookup_2 with 0%nat. vm_compute. reflexivity.
  - apply list_elem_of_lookup_2 with 1%nat. vm_compute. reflexivity.
  - reflexivity.
  - reflexivity.
  - reflexivity.
Defined.

(** *** Edges and children *)

Lemma linked_shift offset objs r :
  linked objs r -> linked (add_y offset <$> objs) r.
Proof.
  intros Hl shifted Hs. rewrite list_lookup_fmap in Hs.
  destruct (objs !! r) as [node|] eqn:Hr; [|done]. injection Hs as <-.
  destruct (Hl node Hr) as (p & father & i & Hp & Hf & Hrest).
  exists p, (add_y offset father), i. rewrite list_lookup_fmap, Hf. done.
Qed.

Lemma fathers_shift offset objs r :
  fathers objs r -> fathers (add_y offset <$> objs) r.
Proof.
  intros Hf shifted Hs. rewrite list_lookup_fmap in Hs.
  destruct (objs !! r) as [node|] eqn:Hr; [|done]. injection Hs as <-.
  cbn. eapply Forall2_impl; [exact (Hf node Hr)|].
  intros c ic (child & Hc & Hrest). exists (add_y offset child).
  rewrite list_lookup_fmap, Hc. done.
Qed.

Lemma edges_of_shift offset objs order :
  edges_of (add_y offset <$> objs) order = edges_of objs order.
Proof.
  unfold edges_of. induction order as [|r order IH]; [done|].
  cbn. rewrite IH, list_lookup_fmap. by destruct (objs !! r).
Qed.

(** Every edge of the layout joins an object to one of its children. *)
Lemma layout_edge_linked tree containerHeight k s t :
  let lay := compute_layout (Some tree) containerHeight k in
  (s, t) ∈ edges lay ->
  exists source target (i : nat),
    objects lay !! s = Some source /\ objects lay !! t = Some target /\
    PN.parent target = Some s /\ PN.children source !! i = Some t /\
    PN.indexPath target = PN.indexPath source ++ [Z.of_nat i] /\
    (PN.x target == PN.x source + LEVEL_SPACING)%Q.
Proof.
  cbn zeta.
  destruct (compute_layout_wired tree containerHeight k)
    as (new & order & es & -> & Hperm & _ & [Hroot _ _ Hlinks]).
  destruct (Hlinks new (holds_at_self new)) as (He & Hl & _).
  cbn [edges objects]. rewrite <- He. unfold edges_of.
  intros (t' & Ht' & Hst)%list_elem_of_omap.
  destruct (new !! t') as [tn|] eqn:Htn; [cbn in Hst|done].
  destruct (PN.parent tn) as [p|] eqn:Hp; [cbn in Hst|done].
  injection Hst as -> ->.
  rewrite Forall_forall in Hl. destruct (Hl t Ht') as [-> | Hlinked].
  - destruct Hroot as (own & Hown & _ & Hpar & _). congruence.
  - apply (linked_shift (containerHeight / (2 * k) - y_of new 0%nat)%Q) in Hlinked.
    destruct (Hlinked (add_y (containerHeight / (2 * k) - y_of new 0%nat)%Q tn))
      as (p & father & i & Hpar & Hf & Hc & Hip & _ & Hx).
    { by rewrite list_lookup_fmap, Htn. }
    cbn in Hpar. rewrite Hp in Hpar. injection Hpar as <-.
    exists father, (add_y (containerHeight / (2 * k) - y_of new 0%nat)%Q tn), i.
    split; [exact Hf|]. rewrite list_lookup_fmap, Htn. done.
Qed.

(** (X14) The layout has exactly one edge per node other than the root,
    in the order in which the nodes were completed: the edge of a node
    goes from the object its [parent] field refers to, which lists the
    node among its children, sits one index shorter on the index path and
    [LEVEL_SPACING] to the left. *)
Theorem layout_edges tree containerHeight k :
  let lay := compute_layout (Some tree) containerHeight k in
  edges lay = edges_of (objects lay) (nodes lay) /\
  (length (edges lay) + 1 = length (nodes lay))%nat /\
  (forall s t, (s, t) ∈ edges lay ->
     exists source target (i : nat),
       objects lay !! s = Some source /\ objects lay !! t = Some target /\
       PN.parent target = Some s /\ PN.children source !! i = Some t /\
       PN.indexPath target = PN.indexPath source ++ [Z.of_nat i] /\
       (PN.x target == PN.x source + 220)%Q).
Proof.
  cbn zeta. split; [|split].
  - destruct (compute_layout_wired tree containerHeight k)
      as (new & order & es & -> & _ & _ & [_ _ _ Hlinks]).
    destruct (Hlinks new (holds_at_self new)) as (He & _ & _).
    cbn [edges objects nodes]. by rewrite edges_of_shift.
  - destruct (compute_layout_wired tree containerHeight k)
      as (new & order & es & -> & Hperm & _ & [_ _ Hlen _]).
    cbn [edges nodes]. rewrite Hperm, length_seq. exact Hlen.
  - intros s t Hst. by apply layout_edge_linked.
Qed.

(** (X15) The curve of every edge of the layout leaves its source and
    enters its target horizontally, and its two control points lie on the
    same vertical line, halfway between the two nodes: [110] to the right
    of the source and [110] to the left of the target, between the ends of
    the curve. *)
Theorem layout_edge_curve tree containerHeight k s t source target :
  let lay := compute_layout (Some tree) containerHeight k in
  (s, t) ∈ edges lay ->
  objects lay !! s = Some source -> objects lay !! t = Some target ->
  let '(start, control1, control2, stop) := edge_curve source target in
  (control1.1 == control2.1)%Q /\ (control1.1 == PN.x source + 110)%Q /\
  control1.2 = start.2 /\ control2.2 = stop.2 /\
  (start.1 < control1.1)%Q /\ (control2.1 < stop.1)%Q.
Proof.
  cbn zeta. intros Hst Hs Ht.
  destruct (layout_edge_linked tree containerHeight k s t Hst)
    as (source' & target' & i & Hs' & Ht' & _ & _ & _ & Hx).
  rewrite Hs in Hs'. rewrite Ht in Ht'. injection Hs' as <-. injection Ht' as <-.
  cbn. unfold LEVEL_SPACING, NODE_RADIUS in *. rewrite Hx.
  repeat split; try done.
  - field.
  - field.
  - apply Qplus_lt_r. reflexivity.
  - unfold Qminus. apply Qplus_lt_r. reflexivity.
Qed.

Lemma layout_edge_curve_witness :
  exists source target,
    objects (compute_layout (Some treeX) 600 1) !! 0%nat = Some source /\
    objects (compute_layout (Some treeX) 600 1) !! 1%nat = Some target /\
    let '(start, control1, control2, stop) := edge_curve source target in
    (control1.1 == control2.1)%Q /\ (control1.1 == PN.x source + 110)%Q /\
    control1.2 = start.2 /\ control2.2 = stop.2 /\
    (start.1 < control1.1)%Q /\ (control2.1 < stop.1)%Q.
Proof.
  eexists _, _. split; [vm_compute; reflexivity|]. split; [vm_compute; reflexivity|].
  apply (layout_edge_curve treeX 600 1 0%nat 1%nat).
  - vm_compute. repeat constructor.
  - vm_compute. reflexivity.
  - vm_compute. reflexivity.
Defined.

Lemma numbered_lookup {A} (l : list A) (i i' : nat) (c : A) :
  numbered 0 l !! i = Some (i', c) -> i' = i /\ l !! i = Some c.
Proof.
  unfold numbered. intros (a & b & [= <- <-] & Ha & Hb)%lookup_zip_with_Some.
  apply lookup_seq in Ha as [-> _]. done.
Qed.

(** (X16) The [children] of every node of the layout are the objects laid
    out for its subtopics, position by position: as many as the node has
    subtopics (none for a node whose [subtopics] is absent or empty), the
    child at position [i] carrying the data of subtopic [i], the index
    path of the node extended by [i], and a [parent] field that refers
    back to the node. *)
Theorem layout_children_match_subtopics tree containerHeight k r node :
  let lay := compute_layout (Some tree) containerHeight k in
  r ∈ nodes lay -> objects lay !! r = Some node ->
  length (PN.children node) = length (subtopics_or_empty (PN.nodeData node)) /\
  (forall (i : nat) c, PN.children node !! i = Some c ->
     exists child,
       objects lay !! c = Some child /\
       subtopics_or_empty (PN.nodeData node) !! i = Some (PN.nodeData child) /\
       PN.parent child = Some r /\
       PN.indexPath child = PN.indexPath node ++ [Z.of_nat i]).
Proof.
  cbn zeta.
  destruct (compute_layout_wired tree containerHeight k)
    as (new & order & es & -> & _ & _ & [_ _ _ Hlinks]).
  destruct (Hlinks new (holds_at_self new)) as (_ & _ & Hf).
  cbn [nodes objects]. intros Hr Hnode. rewrite Forall_forall in Hf.
  pose proof (fathers_shift (containerHeight / (2 * k) - y_of new 0%nat)%Q _ _ (Hf r Hr)
                node Hnode) as Hkids.
  split.
  - rewrite (Forall2_length _ _ _ Hkids). unfold numbered.
    rewrite length_zip_with, length_seq. lia.
  - intros i c Hc.
    destruct (Forall2_lookup_l _ _ _ _ _ Hkids Hc)
      as ([i' sub] & Hsub & child & Hchild & Hpar & Hip & Hdata).
    apply numbered_lookup in Hsub as [-> Hsub]. cbn [fst snd] in *.
    exists child. by rewrite Hdata.
Qed.

Lemma layout_children_match_subtopics_witness :
  exists node,
    objects (compute_layout (Some treeX) 600 1) !! 0%nat = Some node /\
    length (PN.children node) = length (subtopics_or_empty (PN.nodeData node)).
Proof.
  eexists. split; [vm_compute; reflexivity|].
  apply (layout_children_match_subtopics treeX 600 1 0%nat).
  - vm_compute. repeat constructor.
  - vm_compute. reflexivity.
Defined.


(** ** The sidebar *)

Lemma trim_start_nil s : trim_start s = [] <-> Forall (fun c => is_space c = true) s.
Proof.
  induction s as [|c s IH]; cbn; [by split|].
  destruct (is_space c) eqn:Hc.
  - rewrite IH. split; [by constructor | by intros [_ ?]%Forall_cons].
  - split; [done|]. intros [? _]%Forall_cons. congruence.
Qed.

Lemma trim_start_head s c rest : trim_start s = c :: rest -> is_space c = false.
Proof.
  induction s as [|c' s IH]; [done|]. cbn.
  destruct (is_space c') eqn:Hc; [done|]. by intros [= <- _].
Qed.

(** [trim] leaves nothing exactly of a string of white space. *)
Lemma trim_nil s : trim s = [] <-> Forall (fun c => is_space c = true) s.
Proof.
  unfold trim. split.
  - intros H. apply (f_equal reverse) in H. rewrite reverse_involutive in H. cbn in H.
    apply trim_start_nil in H. rewrite Forall_reverse in H. apply trim_start_nil.
    destruct (trim_start s) as [|c rest] eqn:E; [done|].
    apply trim_start_head in E. apply Forall_cons in H as [H _]. congruence.
  - intros H%trim_start_nil. by rewrite H.
Qed.

Lemma split_on_nonempty sep s : split_on sep s <> [].
Proof.
  destruct s as [|c s]; cbn; [done|]. case_bool_decide; [done|].
  by destruct (split_on sep s).
Qed.

(** Joining the pieces with the separator gives the string back. *)
Lemma join_split_on sep s : join_with sep (split_on sep s) = s.
Proof.
  induction s as [|c s IH]; [done|]. cbn [split_on].
  pose proof (split_on_nonempty sep s) as Hne.
  case_bool_decide as Hc.
  - subst c. destruct (split_on sep s) as [|piece pieces]; [done|].
    change (join_with sep ([] :: piece :: pieces))
      with (sep :: join_with sep (piece :: pieces)).
    by rewrite IH.
  - destruct (split_on sep s) as [|piece pieces]; [done|].
    destruct pieces; cbn in IH |- *; by rewrite <- IH.
Qed.

Lemma split_on_no_sep sep s : Forall (fun piece => sep ∉ piece) (split_on sep s).
Proof.
  induction s as [|c s IH]; cbn [split_on].
  - constructor; [apply not_elem_of_nil | constructor].
  - case_bool_decide as Hc.
    + constructor; [apply not_elem_of_nil | done].
    + destruct (split_on sep s) as [|piece pieces]; [constructor; [|constructor]|].
      * intros [?|?%elem_of_nil]%elem_of_cons; done.
      * apply Forall_cons in IH as [Hp Hps]. constructor; [|done].
        intros [?|?]%elem_of_cons; done.
Qed.

Lemma join_with_spaces pieces :
  Forall (fun c => is_space c = true) (join_with newline pieces) <->
  Forall (Forall (fun c => is_space c = true)) pieces.
Proof.
  induction pieces as [|piece pieces IH]; [cbn; split; constructor|].
  destruct pieces as [|piece' pieces].
  - cbn. split; [intros; by constructor | by intros [? _]%Forall_cons].
  - cbn [join_with]. rewrite Forall_app, Forall_cons, IH, (Forall_cons _ piece).
    split; [tauto|]. intros [? ?]. repeat split; done.
Qed.

Lemma filter_keeps_all {A} (P : A -> Prop) `{!forall x, Decision (P x)} (l : list A) :
  Forall P l -> filter P l = l.
Proof.
  induction 1 as [|x l Hx _ IH]; [done|]. by rewrite filter_cons_True, IH.
Qed.

Lemma filter_drops_all {A} (P : A -> Prop) `{!forall x, Decision (P x)} (l : list A) :
  Forall (fun x => ~ P x) l -> filter P l = [].
Proof.
  induction 1 as [|x l Hx _ IH]; [done|]. by rewrite filter_cons_False.
Qed.

(** (X18) What the sidebar shows of a description: nothing at all ([null])
    exactly for the empty string; otherwise the lines that are not blank,
    so that no paragraph contains a line break or consists of white space
    only; the list of paragraphs is empty exactly when the description is
    white space throughout; and when no line is blank, the paragraphs
    joined by line breaks are the description itself. *)
Theorem renderDescription_paragraphs desc :
  (renderDescription desc = None <-> desc = []) /\
  (forall paragraphs, renderDescription desc = Some paragraphs ->
     Forall (fun p => (newline ∉ p) /\ exists c, c ∈ p /\ is_space c = false)
       paragraphs /\
     (paragraphs = [] <-> Forall (fun c => is_space c = true) desc) /\
     (Forall (fun line => trim line <> []) (split_on newline desc) ->
      join_with newline paragraphs = desc)).
Proof.
  split; [by destruct desc|].
  intros paragraphs Hrender.
  assert (paragraphs = filter (fun p => trim p <> []) (split_on newline desc)) as ->.
  { destruct desc; [done|]. by injection Hrender as <-. }
  clear Hrender. split; [|split].
  - apply Forall_forall. intros p [Hp Hin]%list_elem_of_filter. split.
    + pose proof (split_on_no_sep newline desc) as Hsep.
      rewrite Forall_forall in Hsep. by apply Hsep.
    + rewrite trim_nil in Hp. apply not_Forall_Exists in Hp; [|intros c; apply _].
      apply Exists_exists in Hp as (c & Hc & Hspace). exists c. split; [done|].
      cbn in Hspace. by destruct (is_space c).
  - rewrite <- (join_split_on newline desc) at 2. rewrite join_with_spaces.
    split.
    + intros Hnone. apply Forall_forall. intros line Hline.
      apply trim_nil. destruct (decide (trim line = [])) as [|Hne]; [done|].
      assert (line ∈ filter (fun p => trim p <> []) (split_on newline desc)) as Hin
        by (by apply list_elem_of_filter).
      rewrite Hnone in Hin. by apply elem_of_nil in Hin.
    + intros Hall. apply filter_drops_all.
      eapply Forall_impl; [exact Hall|]. intros line Hline Hne.
      by apply Hne, trim_nil.
  - intros Hall. rewrite filter_keeps_all by done. apply join_split_on.
Qed.

(** ** The layout depends on the shape of the tree only *)

Lemma same_shape_subtopics a b :
  same_shape a b -> Forall2 same_shape (subtopics_or_empty a) (subtopics_or_empty b).
Proof. by inversion 1. Qed.

Lemma same_shape_refl a : same_shape a a.
Proof.
  induction a as [a IH] using TreeNodeData_ind. constructor.
  by apply Forall_Forall2_diag.
Qed.

Lemma same_shape_leaf a b : same_shape a b -> is_leaf a = is_leaf b.
Proof.
  intros H%same_shape_subtopics. unfold is_leaf. apply bool_decide_ext.
  split; intros E; rewrite E in H; by inversion H.
Qed.

Lemma y_of_same objs objs' r :
  Forall2 same_geometry objs objs' -> y_of objs r = y_of objs' r.
Proof.
  intros H. unfold y_of. destruct (objs !! r) as [a|] eqn:Ha.
  - destruct (Forall2_lookup_l _ _ _ _ _ H Ha) as (b & -> & _ & Hy & _). done.
  - apply lookup_ge_None in Ha. rewrite (Forall2_length _ _ _ H) in Ha.
    by rewrite lookup_ge_None_2.
Qed.

Lemma alter_same f g (objs objs' : list PN.t) r :
  Forall2 same_geometry objs objs' ->
  (forall a b, same_geometry a b -> same_geometry (f a) (g b)) ->
  Forall2 same_geometry (alter f r objs) (alter g r objs').
Proof. intros H Hfg. apply Forall2_alter; [done|]. intros a b _ _. apply Hfg. Qed.

Lemma place_parent_same self kids s s' :
  same_state s s' -> same_state (place_parent self kids s) (place_parent self kids s').
Proof.
  intros (Hstore & Hn & He & Hy). unfold place_parent.
  assert (Forall2 same_geometry (alter (set_children kids) self (store s))
            (alter (set_children kids) self (store s'))) as Hkids.
  { apply alter_same; [done|]. intros a b (? & ? & ? & ? & ?). by repeat split. }
  destruct (head kids) as [f|], (last kids) as [l|]; try by repeat split.
  rewrite !(y_of_same _ _ _ Hkids). repeat split; try done.
  apply alter_same; [done|]. intros a b (? & ? & ? & ? & ?). by repeat split.
Qed.

Lemma finish_same self parent s s' :
  same_state s s' ->
  (finish self parent s).1 = (finish self parent s').1 /\
  same_state (finish self parent s).2 (finish self parent s').2.
Proof.
  intros (Hstore & Hn & He & Hy). split; [done|]. unfold finish. cbn.
  repeat split; try done; by rewrite ?Hn, ?He.
Qed.

Lemma allocate_same a b depth s s' :
  same_geometry a b -> same_state s s' ->
  same_state (allocate a depth s) (allocate b depth s').
Proof.
  intros Hab (Hstore & Hn & He & Hy). repeat split; try done. cbn.
  apply Forall2_app; [done|]. by constructor.
Qed.

Lemma layout_children_same_shape la lb :
  Forall shape_spec la -> Forall2 same_shape la lb ->
  forall depth self own_path own_path' ip index s s',
    same_state s s' ->
    (layout_children depth self own_path ip la index s).1
    = (layout_children depth self own_path' ip lb index s').1 /\
    same_state (layout_children depth self own_path ip la index s).2
      (layout_children depth self own_path' ip lb index s').2.
Proof.
  intros IH Hshape. revert IH.
  induction Hshape as [|a b la lb Hab _ IHl]; intros IH depth self op op' ip index s s' Hs.
  { by split. }
  apply Forall_cons in IH as [IHa IH].
  rewrite !layout_children_cons.
  destruct (IHa b Hab (S depth) (Some self) op op' (ip ++ [Z.of_nat index]) s s' Hs)
    as [Hkid Hs1].
  destruct (layout a (S depth) (Some self) op (ip ++ [Z.of_nat index]) s) as [kid s1].
  destruct (layout b (S depth) (Some self) op' (ip ++ [Z.of_nat index]) s') as [kid' s1'].
  cbn [fst snd] in Hkid, Hs1. subst kid'.
  destruct (IHl IH depth self op op' ip (S index) s1 s1' Hs1) as [Hrest Hs2].
  destruct (layout_children depth self op ip la (S index) s1) as [rest s2].
  destruct (layout_children depth self op' ip lb (S index) s1') as [rest' s2'].
  cbn [fst snd] in *. by subst rest'.
Qed.

Lemma layout_same_shape a : shape_spec a.
Proof.
  induction a as [a IH] using TreeNodeData_ind.
  intros b Hshape depth parent pp pp' ip st st' Hst.
  pose proof (same_shape_leaf _ _ Hshape) as Hleaf.
  pose proof Hst as (Hstore & _).
  assert (length (store st) = length (store st')) as Hlen by (by eapply Forall2_length).
  assert (same_state (allocate (fresh_node a depth parent pp ip) depth st)
            (allocate (fresh_node b depth parent pp' ip) depth st')) as Hs0.
  { apply allocate_same; [by repeat split | done]. }
  destruct (is_leaf a) eqn:Ha.
  - rewrite (layout_leaf a), (layout_leaf b) by done. rewrite <- Hlen.
    apply finish_same. destruct Hs0 as (Hstore0 & Hn & He & Hy).
    unfold place_leaf. repeat split; try done; cbn [store allNodes allEdges yCounter].
    + rewrite Hy. apply alter_same; [done|]. intros x y (? & ? & ? & ? & ?).
      by repeat split.
    + by rewrite Hy.
  - rewrite (layout_parent a), (layout_parent b) by done. cbn zeta. rewrite <- Hlen.
    destruct (layout_children_same_shape _ _ IH (same_shape_subtopics _ _ Hshape)
                depth (length (store st)) (PN.path (fresh_node a depth parent pp ip))
                (PN.path (fresh_node b depth parent pp' ip)) ip 0%nat _ _ Hs0)
      as [Hkids Hs].
    destruct (layout_children depth (length (store st))
                (PN.path (fresh_node a depth parent pp ip)) ip (subtopics_or_empty a) 0
                (allocate (fresh_node a depth parent pp ip) depth st)) as [kids s].
    destruct (layout_children depth (length (store st))
                (PN.path (fresh_node b depth parent pp' ip)) ip (subtopics_or_empty b) 0
                (allocate (fresh_node b depth parent pp' ip) depth st')) as [kids' s'].
    cbn [fst snd] in Hkids, Hs. subst kids'.
    by apply finish_same, place_parent_same.
Qed.

Lemma shift_all_same offset order : forall objs objs',
  Forall2 same_geometry objs objs' ->
  Forall2 same_geometry (shift_all offset objs order) (shift_all offset objs' order).
Proof.
  induction order as [|r order IH]; intros objs objs' H; [done|].
  cbn. apply IH. apply alter_same; [done|].
  intros a b (? & Hy & ? & ? & ?). repeat split; try done. cbn. by rewrite Hy.
Qed.

Lemma compute_layout_same_shape tree tree' containerHeight k :
  same_shape (rootDataNode tree) (rootDataNode tree') ->
  let lay := compute_layout (Some tree) containerHeight k in
  let lay' := compute_layout (Some tree') containerHeight k in
  nodes lay = nodes lay' /\ edges lay = edges lay' /\
  Forall2 same_geometry (objects lay) (objects lay').
Proof.
  intros Hshape. cbn zeta. unfold compute_layout, layout_pass.
  destruct (layout_same_shape _ _ Hshape 0%nat None "" "" [] initialLayoutState
              initialLayoutState) as [Hroot (Hstore & Hn & He & _)].
  { by repeat split. }
  destruct (layout (rootDataNode tree) 0 None "" [] initialLayoutState) as [r s].
  destruct (layout (rootDataNode tree') 0 None "" [] initialLayoutState) as [r' s'].
  cbn [fst snd] in *. subst r'. cbn [nodes edges objects].
  split; [done|]. split; [done|].
  rewrite (y_of_same _ _ _ Hstore), Hn. by apply shift_all_same.
Qed.

Lemma update_same_shape nodes p u :
  (forall n, subtopics_or_empty (u n) = subtopics_or_empty n) ->
  Forall2 same_shape nodes (updateNodeState nodes p u).
Proof.
  intros Hu. revert nodes. induction p as [|i rest IH]; intros nodes.
  { apply Forall_Forall2_diag, Forall_forall. intros. apply same_shape_refl. }
  apply Forall2_same_length_lookup. split; [by rewrite updateNodeState_length|].
  intros k a b Ha Hb. rewrite <- nth_Z_of_nat in Ha, Hb.
  rewrite updateNodeState_nth, Ha in Hb. case_bool_decide.
  - injection Hb as <-. constructor. destruct rest as [|i' rest'].
    + cbn. rewrite Hu. apply Forall_Forall2_diag, Forall_forall. intros.
      apply same_shape_refl.
    + cbn [rebuild]. rewrite subtopics_or_empty_with. apply IH.
  - injection Hb as <-. apply same_shape_refl.
Qed.

(** (X19) Marking a node as loading, or clearing the mark, moves nothing:
    for every tree, every index path (in bounds or not) and every updater
    that leaves the subtopics of its node as they are, read with
    [node.subtopics || []], the layouts before and after the update have the
    same [nodes] and [edges] lists and, object by object, the same [x],
    [y], [children], [parent] and [indexPath]. *)
Theorem flag_update_keeps_layout tree p updater containerHeight k :
  (forall n, subtopics_or_empty (updater n) = subtopics_or_empty n) ->
  let lay := compute_layout (Some tree) containerHeight k in
  let lay' := compute_layout (Some (applyAt tree p updater)) containerHeight k in
  nodes lay = nodes lay' /\ edges lay = edges lay' /\
  Forall2 (fun a b =>
             PN.x a = PN.x b /\ PN.y a = PN.y b /\ PN.children a = PN.children b /\
             PN.parent a = PN.parent b /\ PN.indexPath a = PN.indexPath b)
    (objects lay) (objects lay').
Proof.
  intros Hu. apply compute_layout_same_shape. constructor. cbn.
  by apply update_same_shape.
Qed.

Lemma flag_update_keeps_layout_witness :
  nodes (compute_layout (Some treeX) 600 1)
  = nodes (compute_layout (Some (applyAt treeX [1] markLoading)) 600 1).
Proof.
  apply (flag_update_keeps_layout treeX [1] markLoading 600 1). done.
Defined.
